(** * virtuakube: the Universe lifecycle and resource allocators

    A shallow embedding of [universe.go]: the tool check, the constructor
    [New], the one-shot teardown [Close], the observation primitive [Wait],
    the port generator goroutine and the IPv4/IPv6 cursor allocators.

    Effects on the operating system (path lookups, directory creation and
    removal, process spawning, context cancellation, goroutine launches) are
    recorded in a chronological trace; their results are supplied by an
    environment.  Byte slices ([net.IP]) live in a heap of backing arrays so
    that aliasing between the cursor and returned addresses is visible. *)

From stdpp Require Import base strings list gmap.
From Stdlib Require Import ZArith Lia.

Open Scope string_scope.
Open Scope list_scope.
Open Scope nat_scope.

(** ** Go values used by the package *)

(** The [error] values the code produces or inspects.  [nil] is [None]. *)
Inductive GoError :=
| ErrNotFound                                  (* exec.ErrNotFound *)
| ExecError (name : string) (err : GoError)    (* &exec.Error{Name, Err} *)
| ErrorString (msg : string)                   (* errors.New, fmt.Errorf *)
| SysError (msg : string).                     (* any other library error *)

Definition error := option GoError.

#[global] Instance GoError_eq_dec : EqDecision GoError.
Proof. solve_decision. Defined.

(** [context.Context]: the background context, or a cancellable context
    derived from a parent.  [id] names its cancel function. *)
Inductive Context :=
| Background
| CancelCtx (id : nat) (parent : Context).

#[global] Instance Context_eq_dec : EqDecision Context.
Proof. solve_decision. Defined.

(** [*exec.Cmd] as built by [exec.CommandContext]. *)
Record Cmd := mkCmd {
  cmd_ctx : Context;
  cmd_name : string;
  cmd_args : list string;
}.

#[global] Instance Cmd_eq_dec : EqDecision Cmd.
Proof. solve_decision. Defined.

(** The three goroutines launched by [New]. *)
Inductive Goroutine :=
| GoSwitchWatcher     (* ret.swtch.Wait(); ret.Close() *)
| GoParentWatcher     (* <-ctx.Done(); ret.Close() *)
| GoPortGenerator.    (* the select loop feeding ret.ports *)

#[global] Instance Goroutine_eq_dec : EqDecision Goroutine.
Proof. solve_decision. Defined.

(** ** Effects *)

Inductive Event :=
| EvLookPath (file : string)
| EvTempDir (dir pfx : string) (created : option string)
| EvWithCancel (id : nat) (parent : Context)
| EvStart (c : Cmd) (started : bool)
| EvCancel (id : nat)
| EvRemoveAll (path : string)
| EvGo (g : Goroutine).

#[global] Instance Event_eq_dec : EqDecision Event.
Proof. solve_decision. Defined.

(** What the operating system answers.  [exec.LookPath] is taken to depend
    on the file name only; the other calls may answer differently as the
    history grows. *)
Record Env := mkEnv {
  exec_LookPath : string → string + GoError;
  ioutil_TempDir : list Event → string → string → string + GoError;
  cmd_Start : list Event → Cmd → error;
  os_RemoveAll : list Event → string → error;
}.

(** A context is done once its own cancel function has run or an ancestor
    is done. *)
Fixpoint done (tr : list Event) (c : Context) : bool :=
  match c with
  | Background => false
  | CancelCtx id p => bool_decide (EvCancel id ∈ tr) || done tr p
  end.

(** ** checkTools *)

Definition universeTools : list string :=
  ["vde_switch"; "qemu-system-x86_64"; "qemu-img"].

(** The test that [err] is an [exec.Error] whose [Err] is
    [exec.ErrNotFound]. *)
Definition isNotFound (err : GoError) : bool :=
  match err with
  | ExecError _ ErrNotFound => true
  | _ => false
  end.

(** The [for _, tool := range tools] loop: [inl err] is the early
    [return err]; [inr missing] is falling out of the loop. *)
Fixpoint checkTools_range (E : Env) (tools missing : list string)
    (tr : list Event) : (GoError + list string) * list Event :=
  match tools with
  | [] => (inr missing, tr)
  | tool :: rest =>
      let tr' := tr ++ [EvLookPath tool] in
      match exec_LookPath E tool with
      | inl _ => checkTools_range E rest missing tr'
      | inr err =>
          if isNotFound err
          then checkTools_range E rest (missing ++ [tool]) tr'
          else (inl err, tr')
      end
  end.

(** [fmt.Errorf("required tools missing: %s", strings.Join(missing, ", "))] *)
Definition MissingDependency (missing : list string) : GoError :=
  ErrorString ("required tools missing: " +:+ String.concat ", " missing).

Definition checkTools (E : Env) (tools : list string) (tr : list Event)
    : error * list Event :=
  match checkTools_range E tools [] tr with
  | (inl err, tr') => (Some err, tr')
  | (inr missing, tr') =>
      if bool_decide (0 < length missing)
      then (Some (MissingDependency missing), tr')
      else (None, tr')
  end.

(** How one tool resolves. *)
Definition resolves (E : Env) (tool : string) : bool :=
  match exec_LookPath E tool with inl _ => true | inr _ => false end.

Definition notFound (E : Env) (tool : string) : bool :=
  match exec_LookPath E tool with inl _ => false | inr err => isNotFound err end.

Definition failsOtherwise (E : Env) (tool : string) : bool :=
  match exec_LookPath E tool with
  | inl _ => false
  | inr err => negb (isNotFound err)
  end.

(** ** Byte slices and their backing arrays *)

(** A slice header: backing array, offset into it and length.  Capacity
    is never consulted by the package and is left out. *)
Record slice := mkSlice {
  s_arr : nat;
  s_off : nat;
  s_len : nat;
}.

#[global] Instance slice_eq_dec : EqDecision slice.
Proof. solve_decision. Defined.

(** The heap of backing arrays; a byte is a [Z] in [0, 256). *)
Abbreviation Heap := (list (list Z)).

Definition nil_slice : slice := mkSlice 0 0 0.

Definition alloc_bytes (bs : list Z) (h : Heap) : slice * Heap :=
  (mkSlice (length h) 0 (length bs), h ++ [bs]).

(** [make(net.IP, n)] *)
Definition make_bytes (n : nat) (h : Heap) : slice * Heap :=
  alloc_bytes (replicate n 0%Z) h.

(** The bytes a slice currently denotes. *)
Definition slice_bytes (h : Heap) (s : slice) : list Z :=
  take (s_len s) (drop (s_off s) (default [] (h !! s_arr s))).

(** [copy(dst, src)]: copies [min(len(dst), len(src))] bytes. *)
Definition copy_bytes (dst src : slice) (h : Heap) : Heap :=
  match h !! s_arr dst with
  | Some arr =>
      <[s_arr dst :=
          list_inserts (s_off dst) (take (s_len dst) (slice_bytes h src)) arr]> h
  | None => h
  end.

(** [s[i]++] on a byte slice: the index is bounds-checked ([None] is the
    run-time panic) and the byte wraps modulo 256. *)
Definition index_incr (s : slice) (i : nat) (h : Heap) : option Heap :=
  if decide (i < s_len s) then
    arr ← h !! s_arr s;
    b ← arr !! (s_off s + i);
    Some (<[s_arr s := <[s_off s + i := ((b + 1) mod 256)%Z]> arr]> h)
  else None.

(** [net.ParseIP] of a dotted quad yields the 16-byte IPv4-in-IPv6 form. *)
Definition v4InV6Prefix : list Z := [0; 0; 0; 0; 0; 0; 0; 0; 0; 0; 255; 255]%Z.

Definition ParseIP_v4 (a b c d : Z) (h : Heap) : slice * Heap :=
  alloc_bytes (v4InV6Prefix ++ [a; b; c; d]) h.

(** [net.ParseIP("fd00::1")] *)
Definition ParseIP_fd00_1 (h : Heap) : slice * Heap :=
  alloc_bytes [253; 0; 0; 0; 0; 0; 0; 0; 0; 0; 0; 0; 0; 0; 0; 1]%Z h.

(** [IP.To4]: a 4-byte slice is returned as is, a 16-byte IPv4-in-IPv6
    slice yields its last four bytes (sharing the array), anything else
    is nil. *)
Definition To4 (h : Heap) (ip : slice) : slice :=
  if decide (s_len ip = 4) then ip
  else if decide (s_len ip = 16) then
    if decide (take 12 (slice_bytes h ip) = v4InV6Prefix)
    then mkSlice (s_arr ip) (s_off ip + 12) 4
    else nil_slice
  else nil_slice.

(** ** The Universe *)

(** A [*VM]; the VM itself belongs to another file of the package. *)
Inductive VMHandle := VMPtr (addr : nat).

(** A channel of [int]: its capacity and whether [close] has been called
    on it. *)
Record Chan := mkChan {
  ch_cap : nat;
  ch_closed : bool;
}.

(** The struct.  [shutdown] is the cancel function of [ctx]; [closeMu]
    serialises the calls of [Close], each of which therefore runs as one
    atomic step on the fields [closed] and [closeErr]. *)
Record Universe := mkUniverse {
  tmpdir : string;
  ctx : Context;
  shutdown : nat;
  ports : Chan;
  nextIP4 : slice;
  nextIP6 : slice;
  vms : gmap string VMHandle;
  swtch : Cmd;
  sock : string;
  closed : bool;
  closeErr : error;
}.

Record World := mkWorld {
  trace : list Event;
  heap : Heap;
}.

Definition emit (evs : list Event) (w : World) : World :=
  mkWorld (trace w ++ evs) (heap w).

Definition set_closed (b : bool) (u : Universe) : Universe :=
  mkUniverse (tmpdir u) (ctx u) (shutdown u) (ports u) (nextIP4 u) (nextIP6 u)
    (vms u) (swtch u) (sock u) b (closeErr u).

Definition set_closeErr (e : error) (u : Universe) : Universe :=
  mkUniverse (tmpdir u) (ctx u) (shutdown u) (ports u) (nextIP4 u) (nextIP6 u)
    (vms u) (swtch u) (sock u) (closed u) e.

Definition set_nextIP4 (s : slice) (u : Universe) : Universe :=
  mkUniverse (tmpdir u) (ctx u) (shutdown u) (ports u) s (nextIP6 u)
    (vms u) (swtch u) (sock u) (closed u) (closeErr u).

Definition set_nextIP6 (s : slice) (u : Universe) : Universe :=
  mkUniverse (tmpdir u) (ctx u) (shutdown u) (ports u) (nextIP4 u) s
    (vms u) (swtch u) (sock u) (closed u) (closeErr u).

(** ** Close *)

Definition Close (E : Env) (u : Universe) (w : World)
    : error * Universe * World :=
  if closed u then (closeErr u, u, w)
  else
    let u1 := set_closed true u in
    (* u.shutdown() *)
    let w1 := emit [EvCancel (shutdown u1)] w in
    (* u.closeErr = os.RemoveAll(u.tmpdir) *)
    let r := os_RemoveAll E (trace w1) (tmpdir u1) in
    let w2 := emit [EvRemoveAll (tmpdir u1)] w1 in
    let u2 := set_closeErr r u1 in
    (closeErr u2, u2, w2).

(** The paths that lead to teardown: the caller, the watcher of the switch
    process and the watcher of the context.  Each calls [Close]. *)
Inductive Trigger := ExplicitClose | SwitchExited | ContextDone.

Definition fire (E : Env) (t : Trigger) (u : Universe) (w : World)
    : error * Universe * World :=
  match t with
  | ExplicitClose => Close E u w
  | SwitchExited => Close E u w
  | ContextDone => Close E u w
  end.

Fixpoint fire_all (E : Env) (ts : list Trigger) (u : Universe) (w : World)
    : list error * Universe * World :=
  match ts with
  | [] => ([], u, w)
  | t :: ts' =>
      let '(r, u1, w1) := fire E t u w in
      let '(rs, u2, w2) := fire_all E ts' u1 w1 in
      (r :: rs, u2, w2)
  end.

(** ** New *)

(** The empty [dir] argument of [ioutil.TempDir]: the system's default
    directory for temporary files. *)
Definition defaultTempDir : string := EmptyString.

(** The [&Universe{...}] literal of [New], for workspace [p] and the child
    context of cancel function [id]. *)
Definition Universe_literal (p : string) (id : nat) (parent : Context)
    (h : Heap) : Universe * Heap :=
  let child := CancelCtx id parent in
  (* filepath.Join(p, "switch") *)
  let sk := p +:+ "/switch" in
  let '(ip4, h1) := ParseIP_v4 172 20 0 1 h in
  let '(ip6, h2) := ParseIP_fd00_1 h1 in
  ({| tmpdir := p;
      ctx := child;
      shutdown := id;
      ports := mkChan 0 false;
      nextIP4 := To4 h1 ip4;
      nextIP6 := ip6;
      vms := ∅;
      swtch := mkCmd child "vde_switch" ["--sock"; sk; "-m"; "0600"];
      sock := sk;
      closed := false;
      closeErr := None |}, h2).

Definition New (E : Env) (parent : Context) (w : World)
    : option Universe * error * World :=
  match checkTools E universeTools (trace w) with
  | (Some err, tr1) => (None, Some err, mkWorld tr1 (heap w))
  | (None, tr1) =>
      match ioutil_TempDir E tr1 defaultTempDir "virtuakube" with
      | inr err =>
          (None, Some err,
           mkWorld (tr1 ++ [EvTempDir defaultTempDir "virtuakube" None]) (heap w))
      | inl p =>
          let tr2 := tr1 ++ [EvTempDir defaultTempDir "virtuakube" (Some p)] in
          (* ctx, shutdown := context.WithCancel(ctx) *)
          let id := length tr2 in
          let tr3 := tr2 ++ [EvWithCancel id parent] in
          let '(ret, h) := Universe_literal p id parent (heap w) in
          match cmd_Start E tr3 (swtch ret) with
          | Some err =>
              let w4 := mkWorld (tr3 ++ [EvStart (swtch ret) false]) h in
              let '(_, _, w5) := Close E ret w4 in
              (None, Some err, w5)
          | None =>
              (Some ret, None,
               mkWorld (tr3 ++ [EvStart (swtch ret) true;
                                EvGo GoSwitchWatcher;
                                EvGo GoParentWatcher;
                                EvGo GoPortGenerator]) h)
          end
      end
  end.

(** ** Wait *)

Inductive WaitOutcome :=
| WaitBlocked
| WaitReturned (e : error).

(** One evaluation of the [select]: [pick] stands for the run-time's
    choice when both cases are ready. *)
Definition Wait (u : Universe) (c : Context) (pick : bool) (w : World)
    : WaitOutcome * Universe * World :=
  let r :=
    match done (trace w) (ctx u), done (trace w) c with
    | false, false => WaitBlocked
    | true, false => WaitReturned None
    | false, true => WaitReturned (Some (ErrorString "timeout"))
    | true, true =>
        if pick then WaitReturned None
        else WaitReturned (Some (ErrorString "timeout"))
    end in
  (r, u, w).

(** A call of [Wait] while the world evolves under it: the call stays
    parked through the successive worlds until one of them lets the
    [select] proceed.  The result carries the number of worlds passed. *)
Fixpoint Wait_during (u : Universe) (c : Context) (pick : bool)
    (timeline : list World) : option (nat * error) :=
  match timeline with
  | [] => None
  | w :: later =>
      match Wait u c pick w with
      | (WaitReturned e, _, _) => Some (0, e)
      | (WaitBlocked, _, _) =>
          '(n, e) ← Wait_during u c pick later; Some (S n, e)
      end
  end.

(** ** The port generator *)

(** Go's [int] on the 64-bit targets of the package: [port++] wraps. *)
Definition int_bits : Z := 64.

Definition int_wrap (z : Z) : Z :=
  ((z + 2 ^ (int_bits - 1)) mod 2 ^ int_bits - 2 ^ (int_bits - 1))%Z.

(** The goroutine is either at its [select], holding [port], or has
    returned. *)
Inductive PortGen :=
| GenSelect (port : Z)
| GenReturned.

(** [port := 50000] *)
Definition portGenerator : PortGen := GenSelect 50000.

(** What [v, ok := <-ch] gives: a value with [ok = true], the zero value
    with [ok = false] (only on a closed channel), or no answer yet. *)
Inductive RecvResult :=
| Received (v : Z)
| ClosedZero
| Parked.

(** The generator's [select] with no receiver on the channel: only the
    [ctx.Done()] case can proceed. *)
Definition portGenerator_idle (ended : bool) (g : PortGen) : PortGen :=
  match g with
  | GenSelect port => if ended then GenReturned else GenSelect port
  | GenReturned => GenReturned
  end.

(** A receive on the unbuffered channel meeting the generator.  [ended]
    says whether the lifetime context is done; when it is and a receiver
    waits, both cases of the generator's [select] can proceed and
    [pick_send] is the run-time's choice. *)
Definition chan_recv (ended pick_send : bool) (ch : Chan) (g : PortGen)
    : RecvResult * PortGen :=
  if ch_closed ch then (ClosedZero, g)
  else
    match g with
    | GenReturned => (Parked, GenReturned)
    | GenSelect port =>
        if ended && negb pick_send
        then (Parked, GenReturned)
        else (Received port, GenSelect (int_wrap (port + 1)))
    end.

(** A receive from [u.ports] in world [w]. *)
Definition recv_port (u : Universe) (w : World) (pick_send : bool)
    (g : PortGen) : RecvResult * PortGen :=
  chan_recv (done (trace w) (ctx u)) pick_send (ports u) g.

(** The generator after [k] receives made while the universe is alive,
    and what the next receive then gets. *)
Definition port_after (ch : Chan) (k : N) : PortGen :=
  N.iter k (λ g, (chan_recv false false ch g).2) portGenerator.

Definition nth_port (ch : Chan) (k : N) : RecvResult :=
  (chan_recv false false ch (port_after ch k)).1.

(** ** The address allocators *)

Definition ipv4 (u : Universe) (w : World)
    : option (slice * Universe * World) :=
  let ret := nextIP4 u in
  let '(fresh, h1) := make_bytes 4 (heap w) in
  let u1 := set_nextIP4 fresh u in
  let h2 := copy_bytes (nextIP4 u1) ret h1 in
  h3 ← index_incr (nextIP4 u1) 3 h2;
  Some (ret, u1, mkWorld (trace w) h3).

Definition ipv6 (u : Universe) (w : World)
    : option (slice * Universe * World) :=
  let ret := nextIP6 u in
  let '(fresh, h1) := make_bytes 16 (heap w) in
  let u1 := set_nextIP6 fresh u in
  let h2 := copy_bytes (nextIP6 u1) ret h1 in
  h3 ← index_incr (nextIP6 u1) 15 h2;
  Some (ret, u1, mkWorld (trace w) h3).

Inductive Family := V4 | V6.

Definition allocate (f : Family) : Universe → World → option (slice * Universe * World) :=
  match f with V4 => ipv4 | V6 => ipv6 end.

Definition cursor (f : Family) : Universe → slice :=
  match f with V4 => nextIP4 | V6 => nextIP6 end.

Definition addr_len (f : Family) : nat :=
  match f with V4 => 4 | V6 => 16 end.

(** A sequence of allocation calls, collecting what each returned. *)
Fixpoint allocate_all (fs : list Family) (u : Universe) (w : World)
    : option (list slice * Universe * World) :=
  match fs with
  | [] => Some ([], u, w)
  | f :: fs' =>
      '(r, u1, w1) ← allocate f u w;
      '(rs, u2, w2) ← allocate_all fs' u1 w1;
      Some (r :: rs, u2, w2)
  end.

(** ** The system as a whole *)

(** The universe, the world and the generator goroutine, and the moves
    they can make once [New] has returned: a teardown trigger fires, a
    cancel function somewhere is called, an address is allocated, a
    receiver meets the generator, or the generator runs on its own. *)
Definition System : Type := Universe * World * PortGen.

Inductive step (E : Env) : System → System → Prop :=
| step_fire t u w g r u' w' :
    fire E t u w = (r, u', w') → step E (u, w, g) (u', w', g)
| step_cancel id u w g :
    step E (u, w, g) (u, emit [EvCancel id] w, g)
| step_allocate f u w g r u' w' :
    allocate f u w = Some (r, u', w') → step E (u, w, g) (u', w', g)
| step_recv pick u w g r g' :
    recv_port u w pick g = (r, g') → step E (u, w, g) (u, w, g')
| step_idle u w g :
    step E (u, w, g) (u, w, portGenerator_idle (done (trace w) (ctx u)) g).

Definition reachable (E : Env) (parent : Context) (w0 : World) (s : System) : Prop :=
  ∃ u w, New E parent w0 = (Some u, None, w) ∧ rtc (step E) (u, w, portGenerator) s.

(** ** Sample environments *)

(** The caller has made a cancellable context and nothing else has
    happened yet. *)
Definition parent0 : Context := CancelCtx 0 Background.

Definition world0 : World := mkWorld [EvWithCancel 0 Background] [].

(** Every tool is installed and every call succeeds. *)
Definition env_ok : Env :=
  mkEnv (λ file, inl ("/usr/bin/" +:+ file))
        (λ _ _ _, inl "/tmp/virtuakube042")
        (λ _ _, None)
        (λ _ _, None).

(** [vde_switch] is not installed; the lookup of [qemu-system-x86_64]
    fails for another reason. *)
Definition env_mixed : Env :=
  mkEnv (λ file,
           if decide (file = "vde_switch")
           then inr (ExecError file ErrNotFound)
           else if decide (file = "qemu-system-x86_64")
           then inr (ExecError file (SysError "permission denied"))
           else inl ("/usr/bin/" +:+ file))
        (λ _ _ _, inl "/tmp/virtuakube042")
        (λ _ _, None)
        (λ _ _, None).

(** Two tools are not installed, nothing else goes wrong. *)
Definition env_missing : Env :=
  mkEnv (λ file,
           if decide (file = "qemu-img")
           then inl "/usr/bin/qemu-img"
           else inr (ExecError file ErrNotFound))
        (λ _ _ _, inl "/tmp/virtuakube042")
        (λ _ _, None)
        (λ _ _, None).

(** The switch cannot be started, and removing the workspace fails too. *)
Definition env_nospawn : Env :=
  mkEnv (λ file, inl ("/usr/bin/" +:+ file))
        (λ _ _ _, inl "/tmp/virtuakube042")
        (λ _ _, Some (SysError "fork/exec /usr/bin/vde_switch: exec format error"))
        (λ _ _, Some (SysError "unlinkat /tmp/virtuakube042: permission denied")).

(** Removal fails the first time it is tried and would succeed later. *)
Definition env_flaky_remove : Env :=
  mkEnv (λ file, inl ("/usr/bin/" +:+ file))
        (λ _ _ _, inl "/tmp/virtuakube042")
        (λ _ _, None)
        (λ tr path,
           if bool_decide (EvRemoveAll path ∈ tr) then None
           else Some (SysError "unlinkat: device or resource busy")).

(** The universe and the world that [New] yields there. *)
Definition universe0 : Universe :=
  (Universe_literal "/tmp/virtuakube042" 5 parent0 []).1.

Definition world1 : World :=
  mkWorld
    (trace world0
     ++ map EvLookPath universeTools
     ++ [EvTempDir defaultTempDir "virtuakube" (Some "/tmp/virtuakube042");
         EvWithCancel 5 parent0;
         EvStart (swtch universe0) true;
         EvGo GoSwitchWatcher; EvGo GoParentWatcher; EvGo GoPortGenerator])
    (Universe_literal "/tmp/virtuakube042" 5 parent0 []).2.

(** ** Notions used in the statements *)

(** What every move of the system preserves: the channel and the
    lifetime context are those [New] made, the trace only grows, and a
    generator that has returned stays so. *)
Definition keeps (s s' : System) : Prop :=
  ports s'.1.1 = ports s.1.1
  ∧ ctx s'.1.1 = ctx s.1.1
  ∧ (∃ evs, trace s'.1.2 = trace s.1.2 ++ evs)
  ∧ (ch_closed (ports s.1.1) = false → s.2 = GenReturned → s'.2 = GenReturned).

(** A slice that lies within an array of the heap. *)
Definition valid_slice (h : Heap) (s : slice) : Prop :=
  ∃ arr : list Z, h !! s_arr s = Some arr ∧ s_off s + s_len s ≤ length arr.

Definition is_byte (b : Z) : Prop := (0 ≤ b < 256)%Z.

(** Both cursors are slices of the right length over bytes. *)
Definition alloc_ok (u : Universe) (w : World) : Prop :=
  ∀ f, valid_slice (heap w) (cursor f u)
       ∧ s_len (cursor f u) = addr_len f
       ∧ Forall is_byte (slice_bytes (heap w) (cursor f u)).

(** An address whose last byte has been advanced [k] times. *)
Definition bump (k : nat) (bs : list Z) : list Z :=
  match last bs with
  | Some d => <[pred (length bs) := ((d + Z.of_nat k) mod 256)%Z]> bs
  | None => bs
  end.

#[global] Instance Family_eq_dec : EqDecision Family.
Proof. solve_decision. Defined.

(** How many of the calls [fs] are for family [f]. *)
Definition calls (f : Family) (fs : list Family) : nat :=
  length (filter (λ g, g = f) fs).

(** The body shared by [ipv4] and [ipv6]: a fresh array of [n] bytes
    receives a copy of [ret] and has its last byte incremented. *)
Definition advance (n : nat) (ret : slice) (h : Heap) : option (slice * Heap) :=
  let '(fresh, h1) := make_bytes n h in
  let h2 := copy_bytes fresh ret h1 in
  h3 ← index_incr fresh (n - 1) h2;
  Some (fresh, h3).

(** ** The remaining methods of the Universe *)

(** [Tmpdir]: a fresh directory under the workspace.  On failure the path
    returned is the empty string. *)
Definition Tmpdir (E : Env) (u : Universe) (pfx : string) (w : World)
    : string * error * World :=
  match ioutil_TempDir E (trace w) (tmpdir u) pfx with
  | inr err => (EmptyString, Some err, emit [EvTempDir (tmpdir u) pfx None] w)
  | inl p => (p, None, emit [EvTempDir (tmpdir u) pfx (Some p)] w)
  end.

(** The method [Context]. *)
Definition Universe_Context (u : Universe) : Context := ctx u.


Definition switchSock (u : Universe) : string := sock u.

(** ** The watcher goroutines *)



(** ** Runs of receives *)

(** Successive receives from the port channel; each comes with what it
    finds: whether the lifetime context is done and what the generator's
    [select] picks if it has a choice. *)
Fixpoint recv_all (obs : list (bool * bool)) (ch : Chan) (g : PortGen)
    : list RecvResult * PortGen :=
  match obs with
  | [] => ([], g)
  | (ended, pick) :: obs' =>
      let '(r, g1) := chan_recv ended pick ch g in
      let '(rs, g2) := recv_all obs' ch g1 in
      (r :: rs, g2)
  end.

(** ** Further notions used in the statements *)

(** How often the removal of [p] has been asked for. *)
Definition removals (p : string) (evs : list Event) : nat :=
  length (filter (λ e, e = EvRemoveAll p) evs).

(** Every cancel function of the context chain [c] was made before the
    trace reached length [n]. *)
Fixpoint ctx_below (n : nat) (c : Context) : Prop :=
  match c with
  | Background => True
  | CancelCtx id p => id < n ∧ ctx_below n p
  end.

(** What holds of a universe [u0] made by [New] in world [w0] throughout
    its life: the fields set at construction stay, no VM is registered by
    the operations of this file, and the workspace has been removed once
    if the universe is closed and not at all otherwise. *)
Definition lifecycle_ok (parent : Context) (u0 : Universe) (w0 : World)
    (s : System) : Prop :=
  tmpdir s.1.1 = tmpdir u0
  ∧ shutdown s.1.1 = shutdown u0
  ∧ ctx s.1.1 = CancelCtx (shutdown u0) parent
  ∧ sock s.1.1 = tmpdir u0 +:+ "/switch"
  ∧ swtch s.1.1 = swtch u0
  ∧ vms s.1.1 = ∅
  ∧ ∃ evs, trace s.1.2 = trace w0 ++ evs
           ∧ removals (tmpdir u0) evs = (if closed s.1.1 then 1 else 0)
           ∧ (closed s.1.1 = true → EvCancel (shutdown u0) ∈ evs)
           ∧ (∀ g, EvGo g ∉ evs)
           ∧ (∀ c b, EvStart c b ∉ evs).

(** The sample universe after its teardown in the world of [env_ok]. *)
Definition universe1 : Universe := set_closeErr None (set_closed true universe0).

Definition world2 : World :=
  mkWorld (trace world1 ++ [EvCancel 5; EvRemoveAll "/tmp/virtuakube042"])
          (heap world1).

(** The tools are installed but no temporary directory can be made. *)
Definition env_tmpfail : Env :=
  mkEnv (λ file, inl ("/usr/bin/" +:+ file))
        (λ _ _ _, inr (SysError "mkdir /tmp/virtuakube042: no space left on device"))
        (λ _ _, None)
        (λ _ _, None).

(** * Properties *)

Example New_sample : New env_ok parent0 world0 = (Some universe0, None, world1).
Proof. reflexivity. Qed.

Example allocate_sample :
  match allocate_all [V4; V6; V4] universe0 world1 with
  | Some (rs, _, w) => map (slice_bytes (heap w)) rs
  | None => []
  end
  = [[172; 20; 0; 1];
     [253; 0; 0; 0; 0; 0; 0; 0; 0; 0; 0; 0; 0; 0; 0; 1];
     [172; 20; 0; 2]]%Z.
Proof. reflexivity. Qed.

(** ** The tool check *)

Section CheckTools.
Context (E : Env).

Lemma resolves_not_other tool :
  resolves E tool = true → failsOtherwise E tool = false.
Proof. unfold resolves, failsOtherwise. by destruct (exec_LookPath E tool). Qed.

Lemma resolves_not_missing tool :
  resolves E tool = true → notFound E tool = false.
Proof. unfold resolves, notFound. by destruct (exec_LookPath E tool). Qed.

(** Without a lookup failing for another reason the loop visits every
    tool and collects the missing ones in order. *)
Lemma checkTools_range_complete tools : ∀ missing tr,
  Forall (λ t, failsOtherwise E t = false) tools →
  checkTools_range E tools missing tr
  = (inr (missing ++ List.filter (notFound E) tools),
     tr ++ map EvLookPath tools).
Proof.
  induction tools as [|tool rest IH]; intros missing tr Hall; simpl.
  - by rewrite !app_nil_r.
  - inversion Hall as [|? ? Htool Hrest]; subst.
    unfold failsOtherwise in Htool. unfold notFound at 1.
    destruct (exec_LookPath E tool) as [path|err].
    + rewrite IH by done. by rewrite <- app_assoc.
    + destruct (isNotFound err); [|done].
      rewrite IH by done. by rewrite <- !app_assoc.
Qed.

(** The first lookup failing for another reason ends the loop. *)
Lemma checkTools_range_short pre : ∀ tool rest err missing tr,
  Forall (λ t, failsOtherwise E t = false) pre →
  exec_LookPath E tool = inr err →
  isNotFound err = false →
  checkTools_range E (pre ++ tool :: rest) missing tr
  = (inl err, tr ++ map EvLookPath (pre ++ [tool])).
Proof.
  induction pre as [|p pre IH]; intros tool rest err missing tr Hpre Hlook Hnf; simpl.
  - by rewrite Hlook, Hnf.
  - inversion Hpre as [|? ? Hp Hrest]; subst.
    unfold failsOtherwise in Hp.
    destruct (exec_LookPath E p) as [path|e].
    + erewrite IH by done. by rewrite <- app_assoc.
    + destruct (isNotFound e); [|done].
      erewrite IH by done. by rewrite <- app_assoc.
Qed.

Lemma filter_notFound_nil tools :
  Forall (λ t, resolves E t = true) tools → List.filter (notFound E) tools = [].
Proof.
  induction 1 as [|t ts Ht _ IH]; simpl; [done|].
  by rewrite (resolves_not_missing _ Ht).
Qed.

Lemma filter_notFound_cons tools :
  Exists (λ t, notFound E t = true) tools →
  0 < length (List.filter (notFound E) tools).
Proof.
  induction 1 as [t ts Ht|t ts _ IH]; simpl.
  - rewrite Ht. simpl. lia.
  - destruct (notFound E t); simpl; lia.
Qed.
End CheckTools.

(** C6.  [checkTools] succeeds when every tool resolves; when some tools
    are not found and no lookup fails otherwise, it returns the one error
    whose message joins the names of all the missing tools, in order; and
    the first lookup that fails for a reason other than not-found is
    returned at once, the remaining tools not being looked up. *)
Theorem checkTools_outcomes (E : Env) (tools : list string) (tr : list Event) :
  (Forall (λ t, resolves E t = true) tools →
   checkTools E tools tr = (None, tr ++ map EvLookPath tools))
  ∧ (Forall (λ t, failsOtherwise E t = false) tools →
     Exists (λ t, notFound E t = true) tools →
     checkTools E tools tr
     = (Some (ErrorString ("required tools missing: "
                           +:+ String.concat ", " (List.filter (notFound E) tools))),
        tr ++ map EvLookPath tools))
  ∧ (∀ pre tool rest err,
       tools = pre ++ tool :: rest →
       Forall (λ t, failsOtherwise E t = false) pre →
       exec_LookPath E tool = inr err →
       isNotFound err = false →
       checkTools E tools tr = (Some err, tr ++ map EvLookPath (pre ++ [tool]))).
Proof.
  unfold checkTools. repeat split.
  - intros Hall.
    rewrite checkTools_range_complete
      by (eapply Forall_impl; [exact Hall|apply resolves_not_other]).
    by rewrite filter_notFound_nil.
  - intros Hall Hex.
    rewrite checkTools_range_complete by done. simpl.
    by rewrite bool_decide_eq_true_2 by by apply filter_notFound_cons.
  - intros pre tool rest err -> Hpre Hlook Hnf.
    by erewrite checkTools_range_short.
Qed.

Lemma checkTools_outcomes_witness :
  checkTools env_ok universeTools []
  = (None, map EvLookPath universeTools)
  ∧ checkTools env_missing universeTools []
    = (Some (ErrorString "required tools missing: vde_switch, qemu-system-x86_64"),
       map EvLookPath universeTools)
  ∧ checkTools env_mixed universeTools []
    = (Some (ExecError "qemu-system-x86_64" (SysError "permission denied")),
       [EvLookPath "vde_switch"; EvLookPath "qemu-system-x86_64"]).
Proof.
  split; [|split].
  - apply (proj1 (checkTools_outcomes env_ok universeTools [])).
    repeat constructor.
  - apply (proj1 (proj2 (checkTools_outcomes env_missing universeTools []))).
    + repeat constructor.
    + apply Exists_cons_hd. reflexivity.
  - apply (proj2 (proj2 (checkTools_outcomes env_mixed universeTools []))
             ["vde_switch"] "qemu-system-x86_64" ["qemu-img"]).
    + reflexivity.
    + repeat constructor.
    + reflexivity.
    + reflexivity.
Defined.

(** ** Teardown *)

Section Teardown.
Context (E : Env).

(** A closed universe answers with its recorded outcome and nothing
    moves. *)
Lemma Close_closed u w :
  closed u = true → Close E u w = (closeErr u, u, w).
Proof. intros Hc. unfold Close. by rewrite Hc. Qed.

Lemma fire_Close t u w : fire E t u w = Close E u w.
Proof. by destruct t. Qed.

Lemma fire_all_closed ts : ∀ u w,
  closed u = true →
  fire_all E ts u w = (replicate (length ts) (closeErr u), u, w).
Proof.
  induction ts as [|t ts IH]; intros u w Hc; simpl; [done|].
  rewrite fire_Close, Close_closed by done.
  by rewrite IH.
Qed.

(** The first call. *)
Lemma Close_first u w :
  closed u = false →
  Close E u w
  = (os_RemoveAll E (trace w ++ [EvCancel (shutdown u)]) (tmpdir u),
     set_closeErr
       (os_RemoveAll E (trace w ++ [EvCancel (shutdown u)]) (tmpdir u))
       (set_closed true u),
     mkWorld (trace w ++ [EvCancel (shutdown u); EvRemoveAll (tmpdir u)])
             (heap w)).
Proof.
  intros Hc. unfold Close, emit. rewrite Hc. simpl.
  by rewrite <- app_assoc.
Qed.

Lemma done_after_cancel tr id p evs :
  done (tr ++ EvCancel id :: evs) (CancelCtx id p) = true.
Proof.
  simpl. rewrite bool_decide_eq_true_2; [done|].
  apply elem_of_app. right. apply elem_of_cons. by left.
Qed.
End Teardown.

(** C1.  On a universe not yet closed, the first call of [Close] cancels
    the lifetime context, then removes the workspace, and records what
    the removal answered; every later call, whatever triggers it, returns
    that recorded outcome and leaves the universe and the world as they
    are: the cancel function and the removal have each run once. *)
Theorem Close_idempotent (E : Env) (u : Universe) (w : World)
    (first : Trigger) (later : list Trigger) :
  closed u = false →
  let r := os_RemoveAll E (trace w ++ [EvCancel (shutdown u)]) (tmpdir u) in
  let u1 := set_closeErr r (set_closed true u) in
  let w1 := mkWorld (trace w ++ [EvCancel (shutdown u); EvRemoveAll (tmpdir u)])
                    (heap w) in
  fire E first u w = (r, u1, w1)
  ∧ closed u1 = true
  ∧ closeErr u1 = r
  ∧ (∀ p, ctx u = CancelCtx (shutdown u) p → done (trace w1) (ctx u) = true)
  ∧ fire_all E later u1 w1 = (replicate (length later) r, u1, w1)
  ∧ fire_all E (first :: later) u w = (replicate (S (length later)) r, u1, w1).
Proof.
  intros Hc r u1 w1.
  assert (Hfirst : fire E first u w = (r, u1, w1)).
  { rewrite fire_Close. by apply Close_first. }
  assert (Hlater : fire_all E later u1 w1 = (replicate (length later) r, u1, w1)).
  { by rewrite fire_all_closed. }
  repeat split; try done.
  - intros p ->. apply done_after_cancel.
  - cbn [fire_all]. by rewrite Hfirst, Hlater.
Qed.

Lemma Close_idempotent_witness :
  fire_all env_flaky_remove [ContextDone; ExplicitClose; SwitchExited]
           universe0 world1
  = (replicate 3 (Some (SysError "unlinkat: device or resource busy")),
     set_closeErr (Some (SysError "unlinkat: device or resource busy"))
                  (set_closed true universe0),
     mkWorld (trace world1 ++ [EvCancel 5; EvRemoveAll "/tmp/virtuakube042"])
             (heap world1)).
Proof.
  apply (Close_idempotent env_flaky_remove universe0 world1
           ContextDone [ExplicitClose; SwitchExited]).
  reflexivity.
Defined.

(** ** Construction *)

Section Construction.
Context (E : Env).

(** A list either satisfies a decidable property throughout or splits
    at its first offender. *)
Lemma first_offender {A} (P : A → bool) (l : list A) :
  Forall (λ x, P x = false) l
  ∨ ∃ pre x rest, l = pre ++ x :: rest
                  ∧ Forall (λ x, P x = false) pre ∧ P x = true.
Proof.
  induction l as [|a l IH]; [by left|].
  destruct (P a) eqn:Ha.
  - right. exists [], a, l. by repeat split.
  - destruct IH as [Hall|(pre & x & rest & -> & Hpre & Hx)].
    + left. by constructor.
    + right. exists (a :: pre), x, rest. repeat split; [|done].
      by constructor.
Qed.
End Construction.

(** C5, as amended.  When a required tool is absent, [New] fails having
    done nothing but path lookups: no workspace directory, no derived
    context, no process, no goroutine, no allocation.  The error names
    every missing tool when no lookup fails for another reason; otherwise
    it is the error of the first lookup that fails for another reason. *)
Theorem New_missing_tool (E : Env) (parent : Context) (w : World) :
  Exists (λ t, notFound E t = true) universeTools →
  ∃ err looked,
    New E parent w
    = (None, Some err, mkWorld (trace w ++ map EvLookPath looked) (heap w))
    ∧ looked `prefix_of` universeTools
    ∧ ((Forall (λ t, failsOtherwise E t = false) universeTools
        ∧ looked = universeTools
        ∧ err = ErrorString ("required tools missing: "
                  +:+ String.concat ", " (List.filter (notFound E) universeTools)))
       ∨ (∃ pre tool rest,
            universeTools = pre ++ tool :: rest
            ∧ Forall (λ t, failsOtherwise E t = false) pre
            ∧ looked = pre ++ [tool]
            ∧ exec_LookPath E tool = inr err
            ∧ isNotFound err = false)).
Proof.
  intros Hmiss. unfold New, checkTools.
  destruct (first_offender (failsOtherwise E) universeTools)
    as [Hall|(pre & x & rest & Heq & Hpre & Hx)].
  - rewrite checkTools_range_complete by done. cbn [app].
    rewrite bool_decide_eq_true_2 by by apply filter_notFound_cons.
    eexists _, universeTools. split; [done|]. split; [done|].
    left. by repeat split.
  - unfold failsOtherwise in Hx.
    destruct (exec_LookPath E x) as [?|err] eqn:Hlook; [done|].
    apply negb_true_iff in Hx.
    rewrite Heq. erewrite checkTools_range_short by done.
    exists err, (pre ++ [x]). split; [done|]. split.
    + exists rest. by rewrite <- app_assoc.
    + right. exists pre, x, rest. by repeat split.
Qed.

Lemma New_missing_tool_witness :
  Exists (λ t, notFound env_missing t = true) universeTools
  ∧ ∃ err looked,
      New env_missing parent0 world0
      = (None, Some err,
         mkWorld (trace world0 ++ map EvLookPath looked) (heap world0))
      ∧ looked `prefix_of` universeTools
      ∧ ((Forall (λ t, failsOtherwise env_missing t = false) universeTools
          ∧ looked = universeTools
          ∧ err = ErrorString "required tools missing: vde_switch, qemu-system-x86_64")
         ∨ (∃ pre tool rest,
              universeTools = pre ++ tool :: rest
              ∧ Forall (λ t, failsOtherwise env_missing t = false) pre
              ∧ looked = pre ++ [tool]
              ∧ exec_LookPath env_missing tool = inr err
              ∧ isNotFound err = false)).
Proof.
  split.
  - apply Exists_cons_hd. reflexivity.
  - apply (New_missing_tool env_missing parent0 world0).
    apply Exists_cons_hd. reflexivity.
Defined.

(** C5, as stated, fails: [vde_switch] is absent, yet the error of [New]
    is the failure of another lookup and names no missing tool. *)
Lemma New_missing_tool_other_error :
  Exists (λ t, notFound env_mixed t = true) universeTools
  ∧ New env_mixed parent0 world0
    = (None,
       Some (ExecError "qemu-system-x86_64" (SysError "permission denied")),
       mkWorld (trace world0
                ++ [EvLookPath "vde_switch"; EvLookPath "qemu-system-x86_64"]) [])
  ∧ ∀ missing,
      ExecError "qemu-system-x86_64" (SysError "permission denied")
      ≠ MissingDependency missing.
Proof.
  split; [|split].
  - apply Exists_cons_hd. reflexivity.
  - reflexivity.
  - intros missing. discriminate.
Qed.

(** C7.  When the tools are present and the workspace was created but
    the switch does not start, [New] runs [Close] on the universe built
    so far (the context is cancelled and the workspace removed, after the
    failed start), hands back no universe, and returns the error of the
    start whatever the teardown answered. *)
Theorem New_spawn_failure (E : Env) (parent : Context) (w : World)
    (tr1 : list Event) (p : string) (err : GoError) :
  checkTools E universeTools (trace w) = (None, tr1) →
  ioutil_TempDir E tr1 defaultTempDir "virtuakube" = inl p →
  let id := S (length tr1) in
  let tr3 := tr1 ++ [EvTempDir defaultTempDir "virtuakube" (Some p); EvWithCancel id parent] in
  let ret := (Universe_literal p id parent (heap w)).1 in
  let h := (Universe_literal p id parent (heap w)).2 in
  let w4 := mkWorld (tr3 ++ [EvStart (swtch ret) false]) h in
  cmd_Start E tr3 (swtch ret) = Some err →
  New E parent w = (None, Some err, (Close E ret w4).2)
  ∧ (Close E ret w4).1.1
    = os_RemoveAll E (tr3 ++ [EvStart (swtch ret) false; EvCancel id]) p
  ∧ trace (Close E ret w4).2
    = tr3 ++ [EvStart (swtch ret) false; EvCancel id; EvRemoveAll p].
Proof.
  intros Hcheck Htmp id tr3 ret h w4 Hstart.
  assert (Hid : length (tr1 ++ [EvTempDir defaultTempDir "virtuakube" (Some p)]) = id).
  { rewrite length_app. simpl. unfold id. lia. }
  assert (Hclose : closed ret = false) by reflexivity.
  split; [|split].
  - unfold New. rewrite Hcheck, Htmp, Hid.
    rewrite <- (app_assoc tr1 [_] [_]). cbn [app].
    fold tr3.
    destruct (Universe_literal p id parent (heap w)) as [ret' h'] eqn:Hlit.
    subst ret h. cbn [fst snd] in *.
    rewrite Hstart. subst w4.
    by destruct (Close E ret' _) as [[? ?] ?].
  - rewrite (Close_first E ret w4 Hclose). cbn [fst snd trace].
    subst w4. cbn [trace]. by rewrite <- app_assoc.
  - rewrite (Close_first E ret w4 Hclose). cbn [snd trace].
    subst w4. cbn [trace]. by rewrite <- app_assoc.
Qed.

Lemma New_spawn_failure_witness :
  New env_nospawn parent0 world0
  = (None,
     Some (SysError "fork/exec /usr/bin/vde_switch: exec format error"),
     mkWorld
       (trace world0
        ++ map EvLookPath universeTools
        ++ [EvTempDir defaultTempDir "virtuakube" (Some "/tmp/virtuakube042");
            EvWithCancel 5 parent0;
            EvStart (swtch universe0) false;
            EvCancel 5;
            EvRemoveAll "/tmp/virtuakube042"])
       (heap world1)).
Proof.
  apply (New_spawn_failure env_nospawn parent0 world0
           (trace world0 ++ map EvLookPath universeTools) "/tmp/virtuakube042"
           (SysError "fork/exec /usr/bin/vde_switch: exec format error")).
  - reflexivity.
  - reflexivity.
  - reflexivity.
Defined.

(** ** Wait *)

Section Waiting.
Context (u : Universe) (c : Context) (pick : bool).

Lemma Wait_frame w : (Wait u c pick w).1.2 = u ∧ (Wait u c pick w).2 = w.
Proof. done. Qed.

Lemma Wait_blocked_iff w :
  (Wait u c pick w).1.1 = WaitBlocked
  ↔ done (trace w) (ctx u) = false ∧ done (trace w) c = false.
Proof.
  unfold Wait. cbn [fst].
  destruct (done (trace w) (ctx u)), (done (trace w) c), pick;
    split; (done || by intros [? ?]).
Qed.

(** A parked call returns in the first world that lets the [select]
    proceed, with what the [select] gives there. *)
Lemma Wait_during_returns timeline : ∀ n e,
  Wait_during u c pick timeline = Some (n, e) ↔
  ∃ w, timeline !! n = Some w
       ∧ (Wait u c pick w).1.1 = WaitReturned e
       ∧ ∀ i w', i < n → timeline !! i = Some w' →
                 (Wait u c pick w').1.1 = WaitBlocked.
Proof.
  induction timeline as [|w0 later IH]; intros n e; cbn [Wait_during].
  - split; [done|]. by intros (w & Hw & _).
  - destruct (Wait u c pick w0) as [[r u'] w'] eqn:HW.
    assert (Hr : (Wait u c pick w0).1.1 = r) by by rewrite HW.
    destruct r as [|e0].
    + split.
      * intros ([m e1] & Hl & Hd)%bind_Some. injection Hd as <- <-.
        apply IH in Hl as (w & Hw & Hret & Hbefore).
        exists w. repeat split; [done..|].
        intros [|i] w1 Hi Hw1; simpl in Hw1.
        -- by injection Hw1 as <-.
        -- apply (Hbefore i); [lia|done].
      * intros (w & Hw & Hret & Hbefore). destruct n as [|n].
        -- simpl in Hw. injection Hw as <-. congruence.
        -- simpl in Hw.
           assert (Hl : Wait_during u c pick later = Some (n, e)).
           { apply IH. exists w. repeat split; [done..|].
             intros i w1 Hi Hw1. apply (Hbefore (S i)); [lia|done]. }
           by rewrite Hl.
    + split.
      * intros [= <- <-]. exists w0. repeat split; [done|].
        intros i w1 Hi. lia.
      * intros (w & Hw & Hret & Hbefore). destruct n as [|n].
        -- simpl in Hw. injection Hw as <-. congruence.
        -- specialize (Hbefore 0 w0). rewrite Hr in Hbefore.
           discriminate Hbefore; [lia|done].
Qed.
End Waiting.

(** C8.  [Wait] stays blocked exactly as long as neither context is done.
    It returns nil when the lifetime context is done and the caller's is
    not, and the timeout error when the caller's context is done and the
    lifetime is not; whatever it returns, nil means the lifetime context
    is done and an error is the timeout error with the caller's context
    done.  A call parked while the world evolves returns in the first
    world in which one of the contexts is done.  In every case the
    universe and the world come back as they were: no teardown, no
    effect. *)
Theorem Wait_observes (u : Universe) (c : Context) (pick : bool) (w : World) :
  let r := (Wait u c pick w).1.1 in
  (Wait u c pick w).1.2 = u
  ∧ (Wait u c pick w).2 = w
  ∧ (r = WaitBlocked
     ↔ done (trace w) (ctx u) = false ∧ done (trace w) c = false)
  ∧ (done (trace w) (ctx u) = true → done (trace w) c = false →
     r = WaitReturned None)
  ∧ (done (trace w) c = true → done (trace w) (ctx u) = false →
     r = WaitReturned (Some (ErrorString "timeout")))
  ∧ (r = WaitReturned None → done (trace w) (ctx u) = true)
  ∧ (∀ e, r = WaitReturned (Some e) →
          e = ErrorString "timeout" ∧ done (trace w) c = true)
  ∧ (∀ timeline n e,
       Wait_during u c pick timeline = Some (n, e) →
       ∃ w', timeline !! n = Some w'
             ∧ (done (trace w') (ctx u) = true ∨ done (trace w') c = true)
             ∧ (Wait u c pick w').1.1 = WaitReturned e
             ∧ (done (trace w') c = false → e = None)
             ∧ (done (trace w') (ctx u) = false →
                e = Some (ErrorString "timeout"))
             ∧ ∀ i wi, i < n → timeline !! i = Some wi →
                 done (trace wi) (ctx u) = false ∧ done (trace wi) c = false).
Proof.
  intros r. split; [done|]. split; [done|]. split; [apply Wait_blocked_iff|].
  subst r. unfold Wait at 1 2 3 4. cbn [fst].
  repeat split.
  - by intros -> ->.
  - by intros -> ->.
  - destruct (done (trace w) (ctx u)), (done (trace w) c), pick; naive_solver.
  - destruct (done (trace w) (ctx u)), (done (trace w) c), pick; naive_solver.
  - destruct (done (trace w) (ctx u)), (done (trace w) c), pick; naive_solver.
  - intros timeline n e (w' & Hw' & Hret & Hbefore)%Wait_during_returns.
    exists w'. split_and!; [done| |done|..].
    + destruct (done (trace w') (ctx u)) eqn:Hu; [by left|].
      destruct (done (trace w') c) eqn:Hc; [by right|].
      assert (Hb : (Wait u c pick w').1.1 = WaitBlocked)
        by by apply Wait_blocked_iff.
      congruence.
    + intros Hc. unfold Wait in Hret. cbn [fst] in Hret. rewrite Hc in Hret.
      destruct (done (trace w') (ctx u)); congruence.
    + intros Hu. unfold Wait in Hret. cbn [fst] in Hret. rewrite Hu in Hret.
      destruct (done (trace w') c); congruence.
    + intros i wi Hi Hwi.
      by apply (Wait_blocked_iff u c pick wi), (Hbefore i).
Qed.

Lemma Wait_observes_witness :
  let w := emit [EvCancel 0] world1 in
  (Wait universe0 Background true w).1.1 = WaitReturned None
  ∧ (Wait universe0 parent0 true world1).1.1 = WaitBlocked.
Proof.
  split.
  - apply (Wait_observes universe0 Background true (emit [EvCancel 0] world1));
      reflexivity.
  - apply (Wait_observes universe0 parent0 true world1). split; reflexivity.
Defined.

(** ** What New returns *)

Lemma New_success E parent w0 u w :
  New E parent w0 = (Some u, None, w) →
  ∃ p id tr,
    u = (Universe_literal p id parent (heap w0)).1
    ∧ heap w = (Universe_literal p id parent (heap w0)).2
    ∧ trace w = trace w0 ++ tr.
Proof.
  unfold New, checkTools.
  destruct (first_offender (failsOtherwise E) universeTools)
    as [Hall|(pre & x & rest & Heq & Hpre & Hx)].
  - rewrite checkTools_range_complete by done.
    destruct (bool_decide _); [done|].
    destruct (ioutil_TempDir _ _ _ _) as [p|?]; [|done].
    destruct (Universe_literal _ _ _ _) as [ret h] eqn:Hlit.
    destruct (cmd_Start _ _ _).
    + by destruct (Close _ _ _) as [[? ?] ?].
    + intros [= <- <-]. eexists p, _, _. rewrite Hlit. cbn [fst snd trace heap].
      repeat split. by rewrite <- !app_assoc.
  - unfold failsOtherwise in Hx.
    destruct (exec_LookPath E x) as [?|err] eqn:Hlook; [done|].
    apply negb_true_iff in Hx.
    rewrite Heq. by erewrite checkTools_range_short.
Qed.

Lemma New_fields E parent w0 u w :
  New E parent w0 = (Some u, None, w) →
  ports u = mkChan 0 false
  ∧ closed u = false
  ∧ ctx u = CancelCtx (shutdown u) parent
  ∧ nextIP4 u = mkSlice (length (heap w0)) 12 4
  ∧ nextIP6 u = mkSlice (S (length (heap w0))) 0 16
  ∧ heap w = heap w0
             ++ [v4InV6Prefix ++ [172; 20; 0; 1];
                 [253; 0; 0; 0; 0; 0; 0; 0; 0; 0; 0; 0; 0; 0; 0; 1]]%Z.
Proof.
  intros (p & id & tr & -> & -> & _)%New_success.
  unfold Universe_literal, ParseIP_v4, ParseIP_fd00_1, alloc_bytes, To4.
  cbn [fst snd ports closed ctx shutdown nextIP4 nextIP6 s_len s_arr s_off].
  repeat split.
  - rewrite decide_False by (simpl; lia).
    rewrite decide_True by done.
    rewrite decide_True; [done|].
    unfold slice_bytes. cbn [s_len s_arr s_off].
    rewrite lookup_app_r by done. by rewrite Nat.sub_diag.
  - by rewrite length_app, Nat.add_1_r.
  - by rewrite <- app_assoc.
Qed.

(** ** The port stream *)

Lemma int_wrap_id z :
  (- 2 ^ 63 ≤ z < 2 ^ 63)%Z → int_wrap z = z.
Proof.
  intros Hz. unfold int_wrap, int_bits.
  change (2 ^ (64 - 1))%Z with (2 ^ 63)%Z.
  change (2 ^ 64)%Z with (2 * 2 ^ 63)%Z.
  rewrite Z.mod_small; lia.
Qed.

Lemma int_wrap_succ z : int_wrap (int_wrap z + 1) = int_wrap (z + 1).
Proof.
  unfold int_wrap. f_equal.
  replace ((z + 2 ^ (int_bits - 1)) mod 2 ^ int_bits - 2 ^ (int_bits - 1) + 1
           + 2 ^ (int_bits - 1))%Z
    with ((z + 2 ^ (int_bits - 1)) mod 2 ^ int_bits + 1)%Z by lia.
  rewrite Z.add_mod_idemp_l by done. f_equal. lia.
Qed.

(** While the lifetime context is not done the generator's [select] can
    only send. *)
Lemma chan_recv_alive pick ch port :
  ch_closed ch = false →
  chan_recv false pick ch (GenSelect port)
  = (Received port, GenSelect (int_wrap (port + 1))).
Proof. intros Hch. unfold chan_recv. by rewrite Hch. Qed.

Lemma port_after_eq ch k :
  ch_closed ch = false →
  port_after ch k = GenSelect (int_wrap (50000 + Z.of_N k)).
Proof.
  intros Hch. unfold port_after.
  induction k as [|k IH] using N.peano_ind.
  - done.
  - rewrite N.iter_succ, IH, chan_recv_alive by done. cbn [snd].
    rewrite int_wrap_succ. f_equal. f_equal. lia.
Qed.

Lemma nth_port_eq ch k :
  ch_closed ch = false →
  nth_port ch k = Received (int_wrap (50000 + Z.of_N k)).
Proof.
  intros Hch. unfold nth_port.
  by rewrite port_after_eq, chan_recv_alive.
Qed.

(** C3, as amended.  As long as the counter stays within Go's [int]
    (that is, for the first [2^63 - 50000] allocations), the [k]-th
    receive made while the universe is alive obtains [50000 + k] (counting
    from 0), whichever world it is made in, and no two of these receives
    obtain the same value. *)
Theorem ports_sequential (E : Env) (parent : Context) (w0 : World)
    (u : Universe) (w : World) (n : N) :
  New E parent w0 = (Some u, None, w) →
  (50000 + Z.of_N n ≤ 2 ^ 63)%Z →
  (∀ k, (k < n)%N → nth_port (ports u) k = Received (50000 + Z.of_N k))
  ∧ (∀ k w' pick,
       (k < n)%N →
       done (trace w') (ctx u) = false →
       recv_port u w' pick (port_after (ports u) k)
       = (Received (50000 + Z.of_N k), port_after (ports u) (N.succ k)))
  ∧ (∀ i j, (i < n)%N → (j < n)%N →
            nth_port (ports u) i = nth_port (ports u) j → i = j).
Proof.
  intros (Hports & _)%New_fields Hn.
  assert (Hch : ch_closed (ports u) = false) by by rewrite Hports.
  repeat split.
  - intros k Hk. rewrite nth_port_eq by done.
    rewrite int_wrap_id; [done|lia].
  - intros k w' pick Hk Halive. unfold recv_port. rewrite Halive.
    rewrite !port_after_eq, chan_recv_alive by done.
    rewrite (int_wrap_id (50000 + Z.of_N k)) by lia.
    do 3 f_equal. lia.
  - intros i j Hi Hj. rewrite !nth_port_eq by done.
    rewrite !int_wrap_id by lia. intros [= Heq]. lia.
Qed.

Lemma ports_sequential_witness :
  nth_port (ports universe0) 0 = Received 50000
  ∧ nth_port (ports universe0) 1 = Received 50001
  ∧ nth_port (ports universe0) 2 = Received 50002.
Proof.
  destruct (ports_sequential env_ok parent0 world0 universe0 world1 3)
    as (Hnth & _ & _).
  - reflexivity.
  - cbv. discriminate.
  - repeat split; apply Hnth; reflexivity.
Defined.

(** C3, as stated for every N, fails: the allocation after the first
    [2^63 - 50000] finds the counter wrapped to the least [int]. *)
Lemma ports_wrap_around :
  New env_ok parent0 world0 = (Some universe0, None, world1)
  ∧ nth_port (ports universe0) 9223372036854725808
    = Received (-9223372036854775808)
  ∧ nth_port (ports universe0) 9223372036854725808
    ≠ Received (50000 + Z.of_N 9223372036854725808).
Proof.
  assert (Hnth : nth_port (ports universe0) 9223372036854725808
                 = Received (-9223372036854775808)).
  { rewrite nth_port_eq by reflexivity. reflexivity. }
  split; [reflexivity|]. split; [exact Hnth|].
  rewrite Hnth. intros [= Heq].
Qed.

(** ** The system after New *)

Lemma done_mono tr evs c : done tr c = true → done (tr ++ evs) c = true.
Proof.
  induction c as [|id p IH]; simpl; [done|].
  intros [Hid|Hp]%orb_true_iff; apply orb_true_iff.
  - left. apply bool_decide_eq_true in Hid. apply bool_decide_eq_true.
    apply elem_of_app. by left.
  - right. by apply IH.
Qed.

Lemma Close_frame E u w r u' w' :
  Close E u w = (r, u', w') →
  ports u' = ports u ∧ ctx u' = ctx u ∧ ∃ evs, trace w' = trace w ++ evs.
Proof.
  unfold Close. destruct (closed u).
  - intros [= <- <- <-]. repeat split. exists []. by rewrite app_nil_r.
  - intros [= <- <- <-]. repeat split. eexists. unfold emit. simpl.
    by rewrite <- app_assoc.
Qed.

Lemma allocate_frame f u w r u' w' :
  allocate f u w = Some (r, u', w') →
  ports u' = ports u ∧ ctx u' = ctx u ∧ trace w' = trace w.
Proof.
  destruct f; unfold allocate, ipv4, ipv6; cbn [make_bytes alloc_bytes];
    intros (h3 & _ & [= <- <- <-])%bind_Some; done.
Qed.

Lemma chan_recv_returned ended pick ch :
  ch_closed ch = false →
  chan_recv ended pick ch GenReturned = (Parked, GenReturned).
Proof. intros Hch. unfold chan_recv. by rewrite Hch. Qed.

Lemma chan_recv_never_closed ended pick ch g :
  ch_closed ch = false → (chan_recv ended pick ch g).1 ≠ ClosedZero.
Proof.
  intros Hch. unfold chan_recv. rewrite Hch.
  destruct g; [destruct (ended && negb pick)|]; done.
Qed.

Lemma step_keeps E s s' : step E s s' → keeps s s'.
Proof.
  destruct 1 as [t u w g r u' w' Hfire|id u w g|f u w g r u' w' Halloc
                |pick u w g r g' Hrecv|u w g]; unfold keeps; cbn [fst snd].
  - rewrite fire_Close in Hfire.
    apply Close_frame in Hfire as (? & ? & ?). by repeat split.
  - split_and!; [done..| |done]. by exists [EvCancel id].
  - apply allocate_frame in Halloc as (? & ? & ->).
    split_and!; [done..| |done]. exists []. by rewrite app_nil_r.
  - split_and!; [done..| |].
    + exists []. by rewrite app_nil_r.
    + intros Hch ->. unfold recv_port in Hrecv.
      rewrite chan_recv_returned in Hrecv by done. by injection Hrecv as _ <-.
  - split_and!; [done..| |].
    + exists []. by rewrite app_nil_r.
    + by intros _ ->.
Qed.

Lemma steps_keep E s s' : rtc (step E) s s' → keeps s s'.
Proof.
  induction 1 as [s|s1 s2 s3 Hstep _ IH].
  - split_and!; [done..| |done]. exists []. by rewrite app_nil_r.
  - apply step_keeps in Hstep as (Hp & Hc & [evs Ht] & Hg).
    destruct IH as (Hp' & Hc' & [evs' Ht'] & Hg').
    split_and!.
    + congruence.
    + congruence.
    + exists (evs ++ evs'). by rewrite Ht', Ht, app_assoc.
    + intros Hch Hret. apply Hg'; [congruence|by apply Hg].
Qed.

(** C2, as amended.  In every state the system can reach after [New],
    once the lifetime context is done a receive from the port stream
    never yields the not-ok indication, because nothing closes the
    channel.  While the generator is still at its [select] the receive
    either obtains the next port (the [select] took the send) or the
    generator returns and the receive stays parked; when the generator
    runs on its own it returns; and once it has returned, every receive,
    in this state and in every later one, stays parked. *)
Theorem recv_after_lifetime_end (E : Env) (parent : Context) (w0 : World)
    (u : Universe) (w : World) (g : PortGen) :
  reachable E parent w0 (u, w, g) →
  done (trace w) (ctx u) = true →
  (∀ pick, (recv_port u w pick g).1 ≠ ClosedZero)
  ∧ (∀ port, g = GenSelect port →
       recv_port u w true g = (Received port, GenSelect (int_wrap (port + 1))))
  ∧ recv_port u w false g = (Parked, GenReturned)
  ∧ portGenerator_idle (done (trace w) (ctx u)) g = GenReturned
  ∧ (g = GenReturned →
     ∀ u' w' g' pick,
       rtc (step E) (u, w, g) (u', w', g') →
       done (trace w') (ctx u') = true
       ∧ recv_port u' w' pick g' = (Parked, GenReturned)).
Proof.
  intros (u0 & w1 & Hnew & Hsteps) Hdone.
  apply New_fields in Hnew as (Hports & _).
  apply steps_keep in Hsteps as (Hp & _). cbn [fst snd] in Hp.
  assert (Hch : ch_closed (ports u) = false) by by rewrite Hp, Hports.
  unfold recv_port. rewrite Hdone. split_and!.
  - intros pick. by apply chan_recv_never_closed.
  - intros port ->. unfold chan_recv. by rewrite Hch.
  - unfold chan_recv. rewrite Hch. by destruct g.
  - by destruct g.
  - intros Hret u' w' g' pick Hlater.
    apply steps_keep in Hlater as (Hp' & Hc & [evs Ht] & Hg).
    cbn [fst snd] in *. split.
    + rewrite Hc, Ht. by apply done_mono.
    + rewrite (Hg Hch Hret). apply chan_recv_returned. congruence.
Qed.

Lemma recv_after_lifetime_end_witness :
  let w2 := emit [EvCancel 0] world1 in
  (∀ pick, (recv_port universe0 w2 pick portGenerator).1 ≠ ClosedZero)
  ∧ recv_port universe0 w2 true portGenerator
    = (Received 50000, GenSelect 50001)
  ∧ recv_port universe0 w2 false portGenerator = (Parked, GenReturned).
Proof.
  intros w2.
  destruct (recv_after_lifetime_end env_ok parent0 world0
              universe0 w2 portGenerator) as (Hnever & Hsend & Hpark & _).
  - exists universe0, world1. split; [reflexivity|].
    apply rtc_once. apply step_cancel.
  - reflexivity.
  - split; [exact Hnever|]. split; [|exact Hpark].
    apply (Hsend 50000%Z). reflexivity.
Defined.

(** C2, as stated, fails: the parent context has been cancelled, the
    generator has seen it and returned, and the receive stays parked
    instead of yielding the not-ok indication. *)
Lemma recv_after_cancel_parks :
  New env_ok parent0 world0 = (Some universe0, None, world1)
  ∧ done (trace (emit [EvCancel 0] world1)) (ctx universe0) = true
  ∧ reachable env_ok parent0 world0
      (universe0, emit [EvCancel 0] world1, GenReturned)
  ∧ ∀ pick,
      recv_port universe0 (emit [EvCancel 0] world1) pick GenReturned
      = (Parked, GenReturned)
      ∧ (recv_port universe0 (emit [EvCancel 0] world1) pick GenReturned).1
        ≠ ClosedZero.
Proof.
  split; [reflexivity|]. split; [reflexivity|]. split.
  - exists universe0, world1. split; [reflexivity|].
    eapply rtc_l; [apply step_cancel|].
    apply rtc_once.
    apply (step_idle env_ok universe0 (emit [EvCancel 0] world1) portGenerator).
  - intros pick. split; [reflexivity|discriminate].
Qed.

(** ** The address allocators *)

Lemma allocate_advance f u w :
  allocate f u w
  = '(fresh, h3) ← advance (addr_len f) (cursor f u) (heap w);
    Some (cursor f u,
          match f with V4 => set_nextIP4 fresh u | V6 => set_nextIP6 fresh u end,
          mkWorld (trace w) h3).
Proof.
  destruct f; unfold allocate, ipv4, ipv6, advance;
    cbn [make_bytes alloc_bytes addr_len cursor nextIP4 nextIP6
         set_nextIP4 set_nextIP6];
    by destruct (index_incr _ _ _).
Qed.

Lemma slice_bytes_length h s :
  valid_slice h s → length (slice_bytes h s) = s_len s.
Proof.
  intros (arr & Harr & Hlen). unfold slice_bytes. rewrite Harr. simpl.
  rewrite length_take, length_drop. lia.
Qed.

Lemma valid_slice_app h ext s : valid_slice h s → valid_slice (h ++ ext) s.
Proof.
  intros (arr & Harr & Hlen). exists arr. split; [|done].
  by apply lookup_app_l_Some.
Qed.

(** Growing the heap leaves the bytes of a valid slice as they are. *)
Lemma slice_bytes_app h ext s :
  valid_slice h s → slice_bytes (h ++ ext) s = slice_bytes h s.
Proof.
  intros (arr & Harr & _). unfold slice_bytes.
  by rewrite (lookup_app_l_Some _ _ _ _ Harr), Harr.
Qed.

Lemma bump_length k bs : length (bump k bs) = length bs.
Proof. unfold bump. destruct (last bs); [apply length_insert|done]. Qed.

Lemma bump_0 bs : Forall is_byte bs → bump 0 bs = bs.
Proof.
  intros Hbs. unfold bump. destruct (last bs) as [d|] eqn:Hlast; [|done].
  rewrite last_lookup in Hlast.
  assert (Hd : is_byte d).
  { eapply Forall_lookup_1; done. }
  rewrite Z.add_0_r, Z.mod_small by done. by apply list_insert_id.
Qed.

Lemma bump_bump a b bs : bump a (bump b bs) = bump (b + a) bs.
Proof.
  unfold bump at 2 3. destruct (last bs) as [d|] eqn:Hlast.
  - rewrite last_lookup in Hlast.
    assert (Hlt : pred (length bs) < length bs) by by eapply lookup_lt_Some.
    unfold bump. rewrite last_lookup, length_insert.
    rewrite list_lookup_insert_eq by done.
    rewrite list_insert_insert_eq. f_equal.
    rewrite Z.add_mod_idemp_l by done. f_equal. lia.
  - unfold bump. by rewrite Hlast.
Qed.

Lemma bump_is_byte k bs : Forall is_byte bs → Forall is_byte (bump k bs).
Proof.
  intros Hbs. unfold bump. destruct (last bs) as [d|]; [|done].
  apply Forall_insert; [done|].
  unfold is_byte. apply Z.mod_pos_bound. lia.
Qed.

Lemma insert_snoc {A} (h : list A) (x y : A) :
  <[length h := y]> (h ++ [x]) = h ++ [y].
Proof.
  rewrite <- (Nat.add_0_r (length h)) at 1. by rewrite insert_app_r.
Qed.

(** One advance: the heap gains one array, holding the old address
    with its last byte incremented modulo 256; no array already there is
    touched. *)
Lemma advance_spec n ret h :
  0 < n →
  valid_slice h ret →
  s_len ret = n →
  advance n ret h
  = Some (mkSlice (length h) 0 n, h ++ [bump 1 (slice_bytes h ret)]).
Proof.
  intros Hn Hvalid Hlen.
  pose proof (slice_bytes_length _ _ Hvalid) as Hbs. rewrite Hlen in Hbs.
  unfold advance, make_bytes, alloc_bytes, copy_bytes.
  cbn [s_arr s_off s_len]. rewrite length_replicate.
  rewrite (list_lookup_middle h [] (replicate n 0%Z) (length h)) by done.
  rewrite (slice_bytes_app _ _ _ Hvalid).
  rewrite take_ge by lia.
  rewrite <- (app_nil_r (slice_bytes h ret)) at 1.
  rewrite list_inserts_0_l by by rewrite length_replicate.
  rewrite insert_snoc.
  unfold index_incr. cbn [s_arr s_off s_len].
  rewrite decide_True by lia.
  rewrite (list_lookup_middle h [] (slice_bytes h ret) (length h)) by done.
  cbn [mbind option_bind Nat.add].
  destruct (slice_bytes h ret !! (n - 1)) as [d|] eqn:Hd.
  - cbn [mbind option_bind]. rewrite insert_snoc.
    unfold bump. rewrite last_lookup, Hbs.
    replace (pred n) with (n - 1) by lia. by rewrite Hd.
  - apply lookup_ge_None in Hd. lia.
Qed.

Lemma slice_bytes_fresh h arr :
  slice_bytes (h ++ [arr]) (mkSlice (length h) 0 (length arr)) = arr.
Proof.
  unfold slice_bytes. cbn [s_arr s_off s_len].
  rewrite (list_lookup_middle h [] arr (length h)) by done. simpl.
  by rewrite drop_0, take_ge.
Qed.

Lemma calls_cons f g fs :
  calls f (g :: fs) = (if decide (g = f) then 1 else 0) + calls f fs.
Proof.
  unfold calls. rewrite filter_cons. by destruct (decide (g = f)).
Qed.

Lemma fresh_cursor_bytes h bs n :
  length bs = n →
  slice_bytes (h ++ [bump 1 bs]) (mkSlice (length h) 0 n) = bump 1 bs.
Proof.
  intros <-. rewrite <- (bump_length 1 bs). apply slice_bytes_fresh.
Qed.

(** One allocation call on a well-formed state: it returns the cursor
    as it stood, and the cursor moves to a fresh array holding the
    advanced address. *)
Lemma allocate_spec f u w :
  alloc_ok u w →
  ∃ u',
    allocate f u w
    = Some (cursor f u, u',
            mkWorld (trace w)
                    (heap w ++ [bump 1 (slice_bytes (heap w) (cursor f u))]))
    ∧ cursor f u' = mkSlice (length (heap w)) 0 (addr_len f)
    ∧ (∀ g, g ≠ f → cursor g u' = cursor g u)
    ∧ alloc_ok u' (mkWorld (trace w)
                     (heap w ++ [bump 1 (slice_bytes (heap w) (cursor f u))])).
Proof.
  intros Hok. destruct (Hok f) as (Hvalid & Hlen & Hbytes).
  pose proof (slice_bytes_length _ _ Hvalid) as Hbs. rewrite Hlen in Hbs.
  rewrite allocate_advance, advance_spec; [|destruct f; simpl; lia|done..].
  cbn [mbind option_bind].
  eexists. split; [done|].
  assert (Hcur : cursor f (match f with
                           | V4 => set_nextIP4 (mkSlice (length (heap w)) 0 (addr_len f)) u
                           | V6 => set_nextIP6 (mkSlice (length (heap w)) 0 (addr_len f)) u
                           end) = mkSlice (length (heap w)) 0 (addr_len f))
    by by destruct f.
  assert (Hother : ∀ g, g ≠ f →
            cursor g (match f with
                      | V4 => set_nextIP4 (mkSlice (length (heap w)) 0 (addr_len f)) u
                      | V6 => set_nextIP6 (mkSlice (length (heap w)) 0 (addr_len f)) u
                      end) = cursor g u)
    by by destruct f, g.
  split; [done|]. split; [done|].
  intros g. cbn [heap]. destruct (decide (g = f)) as [->|Hne].
  - rewrite Hcur, (fresh_cursor_bytes _ _ _ Hbs). split_and!.
    + eexists. split; [by apply list_lookup_middle|].
      cbn [s_off s_len]. rewrite bump_length. lia.
    + done.
    + by apply bump_is_byte.
  - rewrite (Hother g Hne). destruct (Hok g) as (Hv & Hl & Hb). split_and!.
    + by apply valid_slice_app.
    + done.
    + by rewrite slice_bytes_app.
Qed.

(** A sequence of calls on a well-formed state never fails; the heap
    only grows; the [i]-th call, for family [f], returns the address
    the cursor of [f] first held advanced once per earlier call for [f],
    and this is what the returned slice still reads at the end. *)
Lemma allocate_all_spec fs : ∀ u w,
  alloc_ok u w →
  ∃ rs u' w' ext,
    allocate_all fs u w = Some (rs, u', w')
    ∧ length rs = length fs
    ∧ trace w' = trace w
    ∧ heap w' = heap w ++ ext
    ∧ alloc_ok u' w'
    ∧ (∀ f, slice_bytes (heap w') (cursor f u')
            = bump (calls f fs) (slice_bytes (heap w) (cursor f u)))
    ∧ (∀ i f r, fs !! i = Some f → rs !! i = Some r →
         slice_bytes (heap w') r
         = bump (calls f (take i fs)) (slice_bytes (heap w) (cursor f u))).
Proof.
  induction fs as [|f fs IH]; intros u w Hok.
  - exists [], u, w, []. split_and!; try done.
    + by rewrite app_nil_r.
    + intros f. symmetry. apply bump_0, Hok.
  - destruct (allocate_spec f u w Hok) as (u1 & Hcall & Hcur & Hother & Hok1).
    set (w1 := mkWorld (trace w)
                 (heap w ++ [bump 1 (slice_bytes (heap w) (cursor f u))])) in *.
    destruct (IH u1 w1 Hok1)
      as (rs & u2 & w2 & ext & Hrest & Hlen & Htr & Hheap & Hok2 & Hcursors & Hrets).
    exists (cursor f u :: rs), u2, w2,
           ([bump 1 (slice_bytes (heap w) (cursor f u))] ++ ext).
    assert (Hbytes1 : ∀ g, slice_bytes (heap w1) (cursor g u1)
              = bump (if decide (f = g) then 1 else 0)
                     (slice_bytes (heap w) (cursor g u))).
    { intros g. destruct (decide (f = g)) as [<-|Hne].
      - rewrite Hcur. subst w1. cbn [heap].
        destruct (Hok f) as (Hv & Hl & _).
        apply fresh_cursor_bytes. by rewrite (slice_bytes_length _ _ Hv).
      - rewrite Hother by done. subst w1. cbn [heap].
        rewrite slice_bytes_app by apply Hok.
        symmetry. apply bump_0, Hok. }
    split_and!.
    + cbn [allocate_all]. rewrite Hcall. cbn [mbind option_bind].
      by rewrite Hrest.
    + simpl. by rewrite Hlen.
    + by rewrite Htr.
    + rewrite Hheap. subst w1. cbn [heap]. by rewrite <- app_assoc.
    + done.
    + intros g. rewrite Hcursors, Hbytes1, bump_bump, calls_cons. done.
    + intros [|i] g r Hf Hr; simpl in Hf, Hr.
      * injection Hf as <-. injection Hr as <-.
        rewrite Hheap. subst w1. cbn [heap]. rewrite <- app_assoc.
        rewrite slice_bytes_app by apply Hok.
        rewrite take_0. symmetry. apply bump_0, Hok.
      * rewrite (Hrets i g r Hf Hr), Hbytes1, bump_bump.
        cbn [take]. by rewrite calls_cons.
Qed.

Lemma New_alloc_ok E parent w0 u w :
  New E parent w0 = (Some u, None, w) →
  alloc_ok u w
  ∧ slice_bytes (heap w) (nextIP4 u) = [172; 20; 0; 1]%Z
  ∧ slice_bytes (heap w) (nextIP6 u)
    = [253; 0; 0; 0; 0; 0; 0; 0; 0; 0; 0; 0; 0; 0; 0; 1]%Z.
Proof.
  intros (_ & _ & _ & H4 & H6 & Hheap)%New_fields.
  assert (Hl4 : heap w !! length (heap w0)
                = Some (v4InV6Prefix ++ [172; 20; 0; 1]%Z)).
  { rewrite Hheap. by apply list_lookup_middle. }
  assert (Hl6 : heap w !! S (length (heap w0))
                = Some [253; 0; 0; 0; 0; 0; 0; 0; 0; 0; 0; 0; 0; 0; 0; 1]%Z).
  { rewrite Hheap, lookup_app_r by lia.
    by replace (S (length (heap w0)) - length (heap w0)) with 1 by lia. }
  assert (Hb4 : slice_bytes (heap w) (nextIP4 u) = [172; 20; 0; 1]%Z).
  { unfold slice_bytes. by rewrite H4; cbn [s_arr s_off s_len]; rewrite Hl4. }
  assert (Hb6 : slice_bytes (heap w) (nextIP6 u)
                = [253; 0; 0; 0; 0; 0; 0; 0; 0; 0; 0; 0; 0; 0; 0; 1]%Z).
  { unfold slice_bytes. by rewrite H6; cbn [s_arr s_off s_len]; rewrite Hl6. }
  split; [|done].
  intros [|]; cbn [cursor addr_len].
  - rewrite Hb4, H4. split_and!.
    + eexists. split; [exact Hl4|]. simpl. lia.
    + done.
    + repeat constructor; done.
  - rewrite Hb6, H6. split_and!.
    + eexists. split; [exact Hl6|]. simpl. lia.
    + done.
    + repeat constructor; done.
Qed.

Lemma calls_replicate f n : calls f (replicate n f) = n.
Proof.
  induction n as [|n IH]; [done|].
  cbn [replicate]. rewrite calls_cons, decide_True by done. by rewrite IH.
Qed.

(** A run of [n] calls for one family returns the successive advances
    of the address the cursor held. *)
Lemma allocate_replicate f n u w :
  alloc_ok u w →
  ∃ rs u' w',
    allocate_all (replicate n f) u w = Some (rs, u', w')
    ∧ slice_bytes (heap w') <$> rs
      = (λ i, bump i (slice_bytes (heap w) (cursor f u))) <$> seq 0 n.
Proof.
  intros Hok.
  destruct (allocate_all_spec (replicate n f) u w Hok)
    as (rs & u' & w' & ext & Hrun & Hlen & _ & _ & _ & _ & Hrets).
  rewrite length_replicate in Hlen.
  exists rs, u', w'. split; [done|].
  apply list_eq. intros i. rewrite !list_lookup_fmap.
  destruct (decide (i < n)) as [Hi|Hi].
  - destruct (lookup_lt_is_Some_2 rs i) as [r Hr]; [lia|].
    rewrite Hr, lookup_seq_lt by done. cbn [fmap option_fmap option_map Nat.add].
    rewrite (Hrets i f r) by (by rewrite ?lookup_replicate_2).
    rewrite take_replicate, Nat.min_l by lia.
    by rewrite calls_replicate.
  - rewrite lookup_ge_None_2 by lia.
    by rewrite lookup_ge_None_2 by (rewrite length_seq; lia).
Qed.

Lemma bump_snoc k pre d :
  bump k (pre ++ [d]) = pre ++ [((d + Z.of_nat k) mod 256)%Z].
Proof.
  unfold bump. rewrite last_snoc, length_app. simpl.
  replace (pred (length pre + 1)) with (length pre) by lia.
  apply insert_snoc.
Qed.

(** C4.  On a universe fresh from [New], [n] successive calls of [ipv4],
    [n] at most 255 so that no issued last octet overflows, succeed and
    return 172.20.0.1, 172.20.0.2, ...: the [i]-th address (from 0) reads
    172.20.0.(1+i), one more in the last octet than the one before, and
    the addresses are pairwise distinct.  Likewise [ipv6] returns fd00::1,
    fd00::2, ... with the last byte advancing. *)
Theorem addresses_sequential (E : Env) (parent : Context) (w0 : World)
    (u : Universe) (w : World) (n : nat) :
  New E parent w0 = (Some u, None, w) →
  n ≤ 255 →
  (∃ rs u' w',
     allocate_all (replicate n V4) u w = Some (rs, u', w')
     ∧ slice_bytes (heap w') <$> rs
       = (λ i : nat, [172; 20; 0; 1 + Z.of_nat i]%Z) <$> seq 0 n
     ∧ NoDup (slice_bytes (heap w') <$> rs))
  ∧ (∃ rs u' w',
       allocate_all (replicate n V6) u w = Some (rs, u', w')
       ∧ slice_bytes (heap w') <$> rs
         = (λ i : nat,
              [253; 0; 0; 0; 0; 0; 0; 0; 0; 0; 0; 0; 0; 0; 0; 1 + Z.of_nat i]%Z)
           <$> seq 0 n
       ∧ NoDup (slice_bytes (heap w') <$> rs)).
Proof.
  intros (Hok & Hb4 & Hb6)%New_alloc_ok Hn. split.
  - destruct (allocate_replicate V4 n u w Hok) as (rs & u' & w' & Hrun & Hbytes).
    cbn [cursor] in Hbytes. rewrite Hb4 in Hbytes.
    assert (Heq : slice_bytes (heap w') <$> rs
                  = (λ i : nat, [172; 20; 0; 1 + Z.of_nat i]%Z) <$> seq 0 n).
    { rewrite Hbytes. apply list_fmap_ext. intros i j Hj.
      apply lookup_seq in Hj as [-> Hlt].
      change [172; 20; 0; 1]%Z with ([172; 20; 0] ++ [1])%Z.
      rewrite bump_snoc. simpl. rewrite Z.mod_small; [done|lia]. }
    exists rs, u', w'. split; [done|]. split; [done|].
    rewrite Heq. apply NoDup_fmap_2; [|apply NoDup_seq].
    intros i j [= Hij]. lia.
  - destruct (allocate_replicate V6 n u w Hok) as (rs & u' & w' & Hrun & Hbytes).
    cbn [cursor] in Hbytes. rewrite Hb6 in Hbytes.
    assert (Heq : slice_bytes (heap w') <$> rs
                  = (λ i : nat,
                       [253; 0; 0; 0; 0; 0; 0; 0; 0; 0; 0; 0; 0; 0; 0;
                        1 + Z.of_nat i]%Z) <$> seq 0 n).
    { rewrite Hbytes. apply list_fmap_ext. intros i j Hj.
      apply lookup_seq in Hj as [-> Hlt].
      change [253; 0; 0; 0; 0; 0; 0; 0; 0; 0; 0; 0; 0; 0; 0; 1]%Z
        with ([253; 0; 0; 0; 0; 0; 0; 0; 0; 0; 0; 0; 0; 0; 0] ++ [1])%Z.
      rewrite bump_snoc. simpl. rewrite Z.mod_small; [done|lia]. }
    exists rs, u', w'. split; [done|]. split; [done|].
    rewrite Heq. apply NoDup_fmap_2; [|apply NoDup_seq].
    intros i j [= Hij]. lia.
Qed.

Lemma addresses_sequential_witness :
  ∃ rs u' w',
    allocate_all (replicate 3 V4) universe0 world1 = Some (rs, u', w')
    ∧ slice_bytes (heap w') <$> rs
      = [[172; 20; 0; 1]; [172; 20; 0; 2]; [172; 20; 0; 3]]%Z
    ∧ NoDup (slice_bytes (heap w') <$> rs).
Proof.
  apply (addresses_sequential env_ok parent0 world0 universe0 world1 3).
  - reflexivity.
  - lia.
Defined.

(** C9.  Take a universe fresh from [New], any calls [before], one more
    call for family [f] returning [r], and any calls [after].  The bytes
    [r] reads are the same right after its call and after all the later
    ones, and they are those the cursor held before the call: the call
    wrote to a fresh array, which is where the cursor now points and
    which is not the array of [r]. *)
Theorem returned_address_stable (E : Env) (parent : Context) (w0 : World)
    (u0 : Universe) (w : World) (before after : list Family) (f : Family)
    (rs1 rs3 : list slice) (r : slice) (u1 u2 u3 : Universe) (w1 w2 w3 : World) :
  New E parent w0 = (Some u0, None, w) →
  allocate_all before u0 w = Some (rs1, u1, w1) →
  allocate f u1 w1 = Some (r, u2, w2) →
  allocate_all after u2 w2 = Some (rs3, u3, w3) →
  slice_bytes (heap w3) r = slice_bytes (heap w2) r
  ∧ slice_bytes (heap w2) r = slice_bytes (heap w1) r
  ∧ r = cursor f u1
  ∧ s_arr (cursor f u2) = length (heap w1)
  ∧ s_arr r < length (heap w1)
  ∧ (∀ i arr, i < length (heap w1) →
       heap w1 !! i = Some arr → heap w3 !! i = Some arr).
Proof.
  intros (Hok & _)%New_alloc_ok Hbefore Hcall Hafter.
  destruct (allocate_all_spec before u0 w Hok)
    as (? & ? & ? & ? & Hrun1 & _ & _ & _ & Hok1 & _).
  rewrite Hbefore in Hrun1. injection Hrun1 as <- <- <-.
  destruct (allocate_spec f u1 w1 Hok1) as (? & Hrun2 & Hcur & _ & Hok2).
  rewrite Hcall in Hrun2. injection Hrun2 as -> <- ->.
  destruct (allocate_all_spec after u2 _ Hok2)
    as (? & ? & ? & ext & Hrun3 & _ & _ & Hheap3 & _).
  rewrite Hafter in Hrun3. injection Hrun3 as <- <- <-.
  cbn [heap] in *.
  destruct (Hok1 f) as (Hvalid & _).
  split_and!.
  - rewrite Hheap3. apply slice_bytes_app. by apply valid_slice_app.
  - by apply slice_bytes_app.
  - done.
  - by rewrite Hcur.
  - destruct Hvalid as (arr & Harr & _). by eapply lookup_lt_Some.
  - intros i arr _ Harr. rewrite Hheap3.
    by apply lookup_app_l_Some, lookup_app_l_Some.
Qed.

Lemma returned_address_stable_witness :
  ∃ r u2 w2 rs3 u3 w3,
    allocate V4 universe0 world1 = Some (r, u2, w2)
    ∧ allocate_all [V4; V6; V4] u2 w2 = Some (rs3, u3, w3)
    ∧ slice_bytes (heap w3) r = slice_bytes (heap w2) r
    ∧ slice_bytes (heap w3) r = [172; 20; 0; 1]%Z.
Proof.
  pose proof (returned_address_stable env_ok parent0 world0 universe0 world1
                [] [V4; V6; V4] V4 _ _ _ _ _ _ _ _ _
                eq_refl eq_refl eq_refl eq_refl) as (Hlater & _).
  do 6 eexists. split; [reflexivity|]. split; [reflexivity|].
  split; [exact Hlater|reflexivity].
Defined.

Lemma nonempty_snoc {A} (l : list A) :
  0 < length l → ∃ pre d, l = pre ++ [d] ∧ length pre = length l - 1.
Proof.
  destruct l as [|d pre _] using rev_ind; simpl; [lia|].
  intros _. exists pre, d. split; [done|]. rewrite length_app. simpl. lia.
Qed.

(** C10.  In any state reached from [New] by allocation calls, the
    address under the cursor of a family reads [pre ++ [d]]; a call
    returns it and leaves [pre ++ [(d + 1) mod 256]] under the cursor, so
    a last byte of 255 becomes 0 and the other bytes stay; and a run of
    any number of calls never fails, its [i]-th address being
    [pre ++ [(d + i) mod 256]]: the address issued by a call is issued
    again 256 calls later, that is after 255 further allocations. *)
Theorem last_byte_wraps (E : Env) (parent : Context) (w0 : World)
    (u0 : Universe) (w1 : World) (before : list Family) (rs0 : list slice)
    (u : Universe) (w : World) (f : Family) :
  New E parent w0 = (Some u0, None, w1) →
  allocate_all before u0 w1 = Some (rs0, u, w) →
  ∃ pre d,
    slice_bytes (heap w) (cursor f u) = pre ++ [d]
    ∧ length pre = addr_len f - 1
    ∧ (∃ u' w',
         allocate f u w = Some (cursor f u, u', w')
         ∧ slice_bytes (heap w') (cursor f u') = pre ++ [((d + 1) mod 256)%Z]
         ∧ (d = 255%Z → slice_bytes (heap w') (cursor f u') = pre ++ [0%Z]))
    ∧ ∀ n, ∃ rs u' w',
        allocate_all (replicate n f) u w = Some (rs, u', w')
        ∧ slice_bytes (heap w') <$> rs
          = (λ i : nat, pre ++ [((d + Z.of_nat i) mod 256)%Z]) <$> seq 0 n
        ∧ ∀ i, i + 256 < n →
            (slice_bytes (heap w') <$> rs) !! (i + 256)
            = (slice_bytes (heap w') <$> rs) !! i
            ∧ (slice_bytes (heap w') <$> rs) !! i
              = Some (pre ++ [((d + Z.of_nat i) mod 256)%Z]).
Proof.
  intros (Hok0 & _)%New_alloc_ok Hbefore.
  destruct (allocate_all_spec before u0 w1 Hok0)
    as (? & ? & ? & ? & Hrun & _ & _ & _ & Hok & _).
  rewrite Hbefore in Hrun. injection Hrun as <- <- <-.
  destruct (Hok f) as (Hvalid & Hlen & _).
  pose proof (slice_bytes_length _ _ Hvalid) as Hbs. rewrite Hlen in Hbs.
  destruct (nonempty_snoc (slice_bytes (heap w) (cursor f u)))
    as (pre & d & Heq & Hpre); [rewrite Hbs; destruct f; simpl; lia|].
  exists pre, d. rewrite Hbs in Hpre. split; [done|]. split; [done|]. split.
  - destruct (allocate_spec f u w Hok) as (u' & Hcall & Hcur & _ & _).
    assert (Hnew : slice_bytes
                     (heap w ++ [bump 1 (slice_bytes (heap w) (cursor f u))])
                     (cursor f u') = pre ++ [((d + 1) mod 256)%Z]).
    { rewrite Hcur, (fresh_cursor_bytes _ _ _ Hbs), Heq. apply bump_snoc. }
    eexists u', _. split; [exact Hcall|]. cbn [heap]. split; [done|].
    by intros ->.
  - intros n.
    destruct (allocate_replicate f n u w Hok) as (rs & u' & w' & Hrun & Hbytes).
    assert (Hall : slice_bytes (heap w') <$> rs
                   = (λ i : nat, pre ++ [((d + Z.of_nat i) mod 256)%Z])
                     <$> seq 0 n).
    { rewrite Hbytes, Heq. apply list_fmap_ext. intros i j _. apply bump_snoc. }
    exists rs, u', w'. split; [done|]. split; [done|].
    intros i Hi. rewrite Hall, !list_lookup_fmap, !lookup_seq_lt by lia.
    cbn [fmap option_fmap option_map Nat.add]. split; [|done].
    do 3 f_equal.
    replace (d + Z.of_nat (i + 256))%Z with (d + Z.of_nat i + 1 * 256)%Z by lia.
    by rewrite Z_mod_plus_full.
Qed.

Lemma last_byte_wraps_witness :
  ∃ pre d,
    slice_bytes (heap world1) (cursor V4 universe0) = pre ++ [d]
    ∧ length pre = 3
    ∧ ∃ rs u' w',
        allocate_all (replicate 257 V4) universe0 world1 = Some (rs, u', w')
        ∧ (slice_bytes (heap w') <$> rs) !! 256
          = (slice_bytes (heap w') <$> rs) !! 0.
Proof.
  destruct (last_byte_wraps env_ok parent0 world0 universe0 world1 []
              [] universe0 world1 V4)
    as (pre & d & Hbs & Hpre & _ & Hruns).
  - reflexivity.
  - reflexivity.
  - exists pre, d. split; [exact Hbs|]. split; [exact Hpre|].
    destruct (Hruns 257) as (rs & u' & w' & Hrun & _ & Hperiod).
    exists rs, u', w'. split; [exact Hrun|].
    apply (Hperiod 0). lia.
Defined.

(** * Further properties *)

(** ** The tool check, both ways *)

Lemma not_missing_resolves E tools :
  Forall (λ t, failsOtherwise E t = false) tools →
  List.filter (notFound E) tools = [] →
  Forall (λ t, resolves E t = true) tools.
Proof.
  induction 1 as [|t ts Ht _ IH]; simpl; [done|].
  unfold failsOtherwise in Ht. unfold notFound at 1.
  destruct (exec_LookPath E t) as [path|err] eqn:Hlook.
  - intros Hnil. constructor; [|by apply IH].
    unfold resolves. by rewrite Hlook.
  - destruct (isNotFound err); [done|discriminate Ht].
Qed.

Lemma checkTools_cases E tools tr :
  (Forall (λ t, resolves E t = true) tools
   ∧ checkTools E tools tr = (None, tr ++ map EvLookPath tools))
  ∨ (¬ Forall (λ t, resolves E t = true) tools
     ∧ ∃ err looked,
         checkTools E tools tr = (Some err, tr ++ map EvLookPath looked)
         ∧ looked `prefix_of` tools).
Proof.
  unfold checkTools.
  destruct (first_offender (failsOtherwise E) tools)
    as [Hall|(pre & x & rest & -> & Hpre & Hx)].
  - rewrite checkTools_range_complete by done. cbn [app].
    destruct (List.filter (notFound E) tools) as [|m ms] eqn:Hfilter.
    + left. split; [by apply not_missing_resolves|done].
    + right. split.
      * intros Hres. apply filter_notFound_nil in Hres. congruence.
      * rewrite bool_decide_eq_true_2 by (simpl; lia).
        by eexists _, tools.
  - right. unfold failsOtherwise in Hx.
    destruct (exec_LookPath E x) as [?|err] eqn:Hlook; [done|].
    apply negb_true_iff in Hx. split.
    + intros Hres. apply Forall_app in Hres as [_ Hres].
      apply Forall_cons in Hres as [Hres _].
      unfold resolves in Hres. by rewrite Hlook in Hres.
    + erewrite checkTools_range_short by done.
      exists err, (pre ++ [x]). split; [done|].
      exists rest. by rewrite <- app_assoc.
Qed.

(** [checkTools] returns nil exactly when every tool of the list
    resolves (in particular on the empty list), and then it has looked up
    each tool once, in order; when it returns an error it has looked up a
    prefix of the list. *)
Theorem checkTools_nil_iff (E : Env) (tools : list string) (tr : list Event) :
  ((checkTools E tools tr).1 = None
   ↔ Forall (λ t, resolves E t = true) tools)
  ∧ ((checkTools E tools tr).1 = None →
     (checkTools E tools tr).2 = tr ++ map EvLookPath tools)
  ∧ ∃ looked, (checkTools E tools tr).2 = tr ++ map EvLookPath looked
              ∧ looked `prefix_of` tools.
Proof.
  destruct (checkTools_cases E tools tr)
    as [[Hres ->]|[Hnres (err & looked & -> & Hpre)]]; cbn [fst snd].
  - split_and!; [by split|done|by exists tools].
  - split_and!; [|done|by exists looked].
    split; [done|]. intros Hres. by destruct Hnres.
Qed.

Lemma checkTools_nil_iff_witness :
  (checkTools env_ok [] []).1 = None
  ∧ (checkTools env_ok universeTools []).2 = map EvLookPath universeTools
  ∧ (checkTools env_missing universeTools []).1 ≠ None.
Proof.
  split_and!.
  - apply (proj2 (proj1 (checkTools_nil_iff env_ok [] []))). constructor.
  - apply (proj1 (proj2 (checkTools_nil_iff env_ok universeTools []))).
    reflexivity.
  - intros Hnil.
    apply (proj1 (proj1 (checkTools_nil_iff env_missing universeTools []))) in Hnil.
    apply Forall_cons in Hnil as [Hnil _]. discriminate Hnil.
Defined.

(** ** The outcomes of New *)

(** The four ways [New] can go, each with the events it adds. *)
Lemma New_cases E parent w :
  let T := trace w ++ map EvLookPath universeTools in
  let id := S (length T) in
  (¬ Forall (λ t, resolves E t = true) universeTools
   ∧ ∃ err looked,
       New E parent w
       = (None, Some err, mkWorld (trace w ++ map EvLookPath looked) (heap w))
       ∧ looked `prefix_of` universeTools)
  ∨ (Forall (λ t, resolves E t = true) universeTools
     ∧ ((∃ err,
           ioutil_TempDir E T defaultTempDir "virtuakube" = inr err
           ∧ New E parent w
             = (None, Some err,
                mkWorld (T ++ [EvTempDir defaultTempDir "virtuakube" None])
                        (heap w)))
        ∨ ∃ p,
            ioutil_TempDir E T defaultTempDir "virtuakube" = inl p
            ∧ let tr3 := T ++ [EvTempDir defaultTempDir "virtuakube" (Some p);
                               EvWithCancel id parent] in
              let ret := (Universe_literal p id parent (heap w)).1 in
              let h := (Universe_literal p id parent (heap w)).2 in
              (∃ err,
                 cmd_Start E tr3 (swtch ret) = Some err
                 ∧ New E parent w
                   = (None, Some err,
                      mkWorld (tr3 ++ [EvStart (swtch ret) false;
                                       EvCancel id; EvRemoveAll p]) h))
              ∨ (cmd_Start E tr3 (swtch ret) = None
                 ∧ New E parent w
                   = (Some ret, None,
                      mkWorld (tr3 ++ [EvStart (swtch ret) true;
                                       EvGo GoSwitchWatcher;
                                       EvGo GoParentWatcher;
                                       EvGo GoPortGenerator]) h)))).
Proof.
  intros T id.
  destruct (checkTools_cases E universeTools (trace w))
    as [[Hres Hcheck]|[Hnres (err & looked & Hcheck & Hpre)]].
  - right. split; [done|]. fold T in Hcheck.
    destruct (ioutil_TempDir E T defaultTempDir "virtuakube") as [p|err] eqn:Htmp.
    + right. exists p. split; [done|]. intros tr3 ret h.
      assert (Hid : length (T ++ [EvTempDir defaultTempDir "virtuakube" (Some p)])
                    = id).
      { rewrite length_app. simpl. unfold id. lia. }
      assert (Hclosed : closed ret = false) by reflexivity.
      assert (Hfields : tmpdir ret = p ∧ shutdown ret = id) by done.
      destruct Hfields as [Hp Hsh].
      unfold New. rewrite Hcheck, Htmp, Hid, <- (app_assoc T [_] [_]).
      cbn [app]. fold tr3.
      destruct (Universe_literal p id parent (heap w)) as [ret' h'] eqn:Hlit.
      subst ret h. cbn [fst snd] in *.
      destruct (cmd_Start E tr3 (swtch ret')) as [err|] eqn:Hstart.
      * left. exists err. split; [done|].
        rewrite Close_first by done. cbn [trace heap].
        by rewrite Hp, Hsh, <- app_assoc.
      * right. by split.
    + left. exists err. split; [done|].
      unfold New. by rewrite Hcheck, Htmp.
  - left. split; [done|]. exists err, looked. split; [|done].
    unfold New. by rewrite Hcheck.
Qed.

Lemma elem_of_lookups e looked :
  e ∈ map EvLookPath looked → ∃ file, e = EvLookPath file.
Proof.
  induction looked as [|f fs IH]; simpl.
  - by intros ?%elem_of_nil.
  - intros [->|Hin]%elem_of_cons; [by exists f|by apply IH].
Qed.

(** [New] hands back either a universe and no error, or an error and no
    universe; and it hands back a universe exactly when every tool
    resolves, the workspace directory can be made and the switch
    starts. *)
Theorem New_returns_one (E : Env) (parent : Context) (w : World) :
  let T := trace w ++ map EvLookPath universeTools in
  let id := S (length T) in
  ((∃ u w', New E parent w = (Some u, None, w'))
   ∨ (∃ err w', New E parent w = (None, Some err, w')))
  ∧ ((∃ u w', New E parent w = (Some u, None, w'))
     ↔ Forall (λ t, resolves E t = true) universeTools
       ∧ ∃ p, ioutil_TempDir E T defaultTempDir "virtuakube" = inl p
              ∧ cmd_Start E
                  (T ++ [EvTempDir defaultTempDir "virtuakube" (Some p);
                         EvWithCancel id parent])
                  (swtch (Universe_literal p id parent (heap w)).1)
                = None).
Proof.
  intros T id. subst T id.
  pose proof (New_cases E parent w) as Hcases. cbv zeta in Hcases.
  destruct Hcases
    as [(Hnres & err & looked & Hnew & _)
       |(Hres & [(err & Htmp & Hnew)
                |(p & Htmp & [(err & Hstart & Hnew)|(Hstart & Hnew)])])].
  - split; [right; eauto|]. split.
    + intros (u & w' & Heq). congruence.
    + by intros [Hres _].
  - split; [right; eauto|]. split.
    + intros (u & w' & Heq). congruence.
    + intros (_ & p & Hp & _). congruence.
  - split; [right; eauto|]. split.
    + intros (u & w' & Heq). congruence.
    + intros (_ & p' & Hp & Hs). rewrite Htmp in Hp. injection Hp as <-.
      congruence.
  - split; [left; eauto|]. split.
    + intros _. split; [done|]. by exists p.
    + intros _. eauto.
Qed.

Lemma New_returns_one_witness :
  (∃ u w', New env_ok parent0 world0 = (Some u, None, w'))
  ∧ ¬ (∃ u w', New env_nospawn parent0 world0 = (Some u, None, w')).
Proof.
  split.
  - apply (proj2 (New_returns_one env_ok parent0 world0)).
    split; [repeat constructor|]. by exists "/tmp/virtuakube042".
  - intros Hsome.
    apply (proj2 (New_returns_one env_nospawn parent0 world0)) in Hsome.
    destruct Hsome as (_ & p & _ & Hstart). discriminate Hstart.
Defined.

(** When [New] fails it leaves nothing behind: a workspace directory it
    made has been handed to [os.RemoveAll], a context it derived has been
    cancelled, no goroutine was launched and no process is running. *)
Theorem New_failure_cleans_up (E : Env) (parent : Context) (w : World)
    (err : GoError) (w' : World) :
  New E parent w = (None, Some err, w') →
  ∃ evs,
    trace w' = trace w ++ evs
    ∧ (∀ dir pfx p, EvTempDir dir pfx (Some p) ∈ evs → EvRemoveAll p ∈ evs)
    ∧ (∀ id par, EvWithCancel id par ∈ evs → EvCancel id ∈ evs)
    ∧ (∀ g, EvGo g ∉ evs)
    ∧ (∀ c, EvStart c true ∉ evs).
Proof.
  intros Hnew.
  pose proof (New_cases E parent w) as Hcases. cbv zeta in Hcases.
  destruct Hcases
    as [(_ & err' & looked & Hnew' & _)
       |(_ & [(err' & _ & Hnew')
             |(p & _ & [(err' & _ & Hnew')|(_ & Hnew')])])];
    rewrite Hnew in Hnew'; [..|done]; injection Hnew' as _ ->; cbn [trace].
  - exists (map EvLookPath looked). split; [done|].
    split_and!.
    + by intros dir pfx p' [? ?]%elem_of_lookups.
    + by intros id' par [? ?]%elem_of_lookups.
    + by intros g [? ?]%elem_of_lookups.
    + by intros c [? ?]%elem_of_lookups.
  - eexists. split; [by rewrite <- app_assoc|].
    split_and!.
    + intros dir pfx p' [[? ?]%(elem_of_lookups _ universeTools)|Hin]%elem_of_app;
        [done|].
      by apply list_elem_of_singleton in Hin.
    + intros id' par [[? ?]%(elem_of_lookups _ universeTools)|Hin]%elem_of_app;
        [done|].
      by apply list_elem_of_singleton in Hin.
    + intros g [[? ?]%(elem_of_lookups _ universeTools)|Hin]%elem_of_app;
        [done|].
      by apply list_elem_of_singleton in Hin.
    + intros c [[? ?]%(elem_of_lookups _ universeTools)|Hin]%elem_of_app;
        [done|].
      by apply list_elem_of_singleton in Hin.
  - eexists (map EvLookPath universeTools ++ [_; _; _; _; _]).
    split; [by rewrite <- !app_assoc|].
    split_and!.
    + intros dir pfx p' [[? ?]%(elem_of_lookups _ universeTools)|Hin]%elem_of_app;
        [done|].
      apply elem_of_app. right.
      repeat (apply elem_of_cons in Hin as [Heq|Hin]; [try done|]).
      * injection Heq as _ _ <-. set_solver.
      * by apply elem_of_nil in Hin.
    + intros id' par [[? ?]%(elem_of_lookups _ universeTools)|Hin]%elem_of_app;
        [done|].
      apply elem_of_app. right.
      repeat (apply elem_of_cons in Hin as [Heq|Hin]; [try done|]).
      * injection Heq as <- _. set_solver.
      * by apply elem_of_nil in Hin.
    + intros g [[? ?]%(elem_of_lookups _ universeTools)|Hin]%elem_of_app;
        [done|].
      repeat (apply elem_of_cons in Hin as [Heq|Hin]; [done|]).
      by apply elem_of_nil in Hin.
    + intros c [[? ?]%(elem_of_lookups _ universeTools)|Hin]%elem_of_app;
        [done|].
      repeat (apply elem_of_cons in Hin as [Heq|Hin]; [done|]).
      by apply elem_of_nil in Hin.
Qed.

Lemma New_failure_cleans_up_witness :
  ∃ evs,
    trace (New env_nospawn parent0 world0).2 = trace world0 ++ evs
    ∧ (∀ dir pfx p, EvTempDir dir pfx (Some p) ∈ evs → EvRemoveAll p ∈ evs)
    ∧ (∀ id par, EvWithCancel id par ∈ evs → EvCancel id ∈ evs)
    ∧ (∀ g, EvGo g ∉ evs)
    ∧ (∀ c, EvStart c true ∉ evs).
Proof.
  eapply (New_failure_cleans_up env_nospawn parent0 world0).
  reflexivity.
Defined.

(** When the tools are there but the workspace directory cannot be made,
    [New] returns that error having derived no context, started no
    process and launched no goroutine; there is nothing to tear down and
    [Close] is not run. *)
Theorem New_tempdir_failure (E : Env) (parent : Context) (w : World)
    (err : GoError) :
  Forall (λ t, resolves E t = true) universeTools →
  ioutil_TempDir E (trace w ++ map EvLookPath universeTools)
    defaultTempDir "virtuakube" = inr err →
  New E parent w
  = (None, Some err,
     mkWorld (trace w ++ map EvLookPath universeTools
              ++ [EvTempDir defaultTempDir "virtuakube" None])
             (heap w)).
Proof.
  intros Hres Htmp.
  pose proof (New_cases E parent w) as Hcases. cbv zeta in Hcases.
  destruct Hcases
    as [(Hnres & _)
       |(_ & [(err' & Htmp' & Hnew)|(p & Htmp' & _)])]; [done|..].
  - rewrite Htmp in Htmp'. injection Htmp' as <-.
    by rewrite Hnew, <- app_assoc.
  - congruence.
Qed.

Lemma New_tempdir_failure_witness :
  New env_tmpfail parent0 world0
  = (None,
     Some (SysError "mkdir /tmp/virtuakube042: no space left on device"),
     mkWorld (trace world0 ++ map EvLookPath universeTools
              ++ [EvTempDir defaultTempDir "virtuakube" None]) []).
Proof.
  apply (New_tempdir_failure env_tmpfail parent0 world0).
  - repeat constructor.
  - reflexivity.
Defined.



(** ** The life of a universe *)

Lemma removals_app p evs1 evs2 :
  removals p (evs1 ++ evs2) = removals p evs1 + removals p evs2.
Proof. unfold removals. by rewrite filter_app, length_app. Qed.

Lemma removals_close id p : removals p [EvCancel id; EvRemoveAll p] = 1.
Proof.
  unfold removals. rewrite filter_cons, decide_False by done.
  by rewrite filter_cons, decide_True.
Qed.

Lemma removals_cancel id p : removals p [EvCancel id] = 0.
Proof. unfold removals. by rewrite filter_cons, decide_False. Qed.

Lemma allocate_fields f u w r u' w' :
  allocate f u w = Some (r, u', w') →
  tmpdir u' = tmpdir u ∧ shutdown u' = shutdown u ∧ ctx u' = ctx u
  ∧ sock u' = sock u ∧ swtch u' = swtch u ∧ vms u' = vms u
  ∧ closed u' = closed u ∧ closeErr u' = closeErr u
  ∧ trace w' = trace w.
Proof.
  destruct f; unfold allocate, ipv4, ipv6; cbn [make_bytes alloc_bytes];
    intros (h3 & _ & [= <- <- <-])%bind_Some; done.
Qed.

Lemma lifecycle_init E parent w u w' :
  New E parent w = (Some u, None, w') →
  lifecycle_ok parent u w' (u, w', portGenerator).
Proof.
  intros Hnew.
  pose proof (New_cases E parent w) as Hcases. cbv zeta in Hcases.
  destruct Hcases
    as [(_ & err' & looked & Hnew' & _)
       |(Hres & [(err' & _ & Hnew')
                |(p & _ & [(err' & _ & Hnew')|(_ & Hnew')])])];
    rewrite Hnew in Hnew'; try done.
  injection Hnew' as -> ->. unfold lifecycle_ok. cbn [fst snd].
  split_and!; try done.
  exists []. split_and!; try done.
  - by rewrite app_nil_r.
  - intros g Hin. by apply elem_of_nil in Hin.
  - intros c b Hin. by apply elem_of_nil in Hin.
Qed.

Lemma lifecycle_step E parent u0 w0 s s' :
  lifecycle_ok parent u0 w0 s → step E s s' → lifecycle_ok parent u0 w0 s'.
Proof.
  intros (Htmp & Hsh & Hctx & Hsock & Hsw & Hvms & evs & Htr & Hrem & Hcan & Hgo & Hst)
         Hstep.
  destruct Hstep as [t u w g r u' w' Hfire|id u w g|f u w g r u' w' Halloc
                    |pick u w g r g' Hrecv|u w g];
    unfold lifecycle_ok; cbn [fst snd] in *.
  - rewrite fire_Close in Hfire. destruct (closed u) eqn:Hclosed.
    + rewrite Close_closed in Hfire by done. injection Hfire as _ <- <-.
      split_and!; try done. exists evs. rewrite Hclosed. by split_and!.
    + rewrite Close_first in Hfire by done. injection Hfire as _ <- <-.
      split_and!; try done.
      exists (evs ++ [EvCancel (shutdown u0); EvRemoveAll (tmpdir u0)]).
      cbn [trace closed set_closeErr set_closed]. split_and!.
      * by rewrite Htr, Hsh, Htmp, <- app_assoc.
      * by rewrite removals_app, removals_close, Hrem.
      * intros _. apply elem_of_app. right. apply elem_of_cons. by left.
      * intros g' [Hin|Hin]%elem_of_app; [by apply (Hgo g')|].
        by repeat (apply elem_of_cons in Hin as [?|Hin]; [done|]);
          apply elem_of_nil in Hin.
      * intros c b [Hin|Hin]%elem_of_app; [by apply (Hst c b)|].
        by repeat (apply elem_of_cons in Hin as [?|Hin]; [done|]);
          apply elem_of_nil in Hin.
  - split_and!; try done.
    exists (evs ++ [EvCancel id]). cbn [trace emit]. split_and!.
    + by rewrite Htr, <- app_assoc.
    + by rewrite removals_app, removals_cancel, Hrem, Nat.add_0_r.
    + intros Hc. apply elem_of_app. left. by apply Hcan.
    + intros g' [Hin|Hin]%elem_of_app; [by apply (Hgo g')|].
      by apply list_elem_of_singleton in Hin.
    + intros c b [Hin|Hin]%elem_of_app; [by apply (Hst c b)|].
      by apply list_elem_of_singleton in Hin.
  - apply allocate_fields in Halloc
      as (-> & -> & -> & -> & -> & -> & Hcl & _ & Htr').
    split_and!; try done.
    exists evs. rewrite Hcl, Htr'. by split_and!.
  - split_and!; try done. exists evs. by split_and!.
  - split_and!; try done. exists evs. by split_and!.
Qed.

Lemma lifecycle_steps E parent u0 w0 s s' :
  rtc (step E) s s' → lifecycle_ok parent u0 w0 s → lifecycle_ok parent u0 w0 s'.
Proof.
  induction 1 as [s|s1 s2 s3 Hstep _ IH]; [done|].
  intros Hok. apply IH. by eapply lifecycle_step.
Qed.



(** Throughout the life of a universe the removal of its workspace has
    been asked for exactly once if it is closed and never if it is open,
    however many triggers fired and whatever else happened in between;
    and after [New] no process is started and no goroutine launched. *)
Theorem workspace_removed_once (E : Env) (parent : Context) (wi : World)
    (u0 : Universe) (w0 : World) (u : Universe) (w : World) (g : PortGen) :
  New E parent wi = (Some u0, None, w0) →
  rtc (step E) (u0, w0, portGenerator) (u, w, g) →
  tmpdir u = tmpdir u0
  ∧ ∃ evs,
      trace w = trace w0 ++ evs
      ∧ removals (tmpdir u0) evs = (if closed u then 1 else 0)
      ∧ (closed u = true → EvCancel (shutdown u0) ∈ evs)
      ∧ (∀ g', EvGo g' ∉ evs)
      ∧ (∀ c b, EvStart c b ∉ evs).
Proof.
  intros Hnew Hsteps.
  destruct (lifecycle_steps _ _ _ _ _ _ Hsteps (lifecycle_init _ _ _ _ _ Hnew))
    as (Htmp & _ & _ & _ & _ & _ & Hevs).
  by split.
Qed.

Lemma workspace_removed_once_witness :
  ∃ evs, trace world2 = trace world1 ++ evs
         ∧ removals "/tmp/virtuakube042" evs = 1.
Proof.
  destruct (workspace_removed_once env_ok parent0 world0 universe0 world1
              universe1 world2 portGenerator) as (_ & evs & Htr & Hrem & _).
  - reflexivity.
  - eapply rtc_l; [by apply (step_fire env_ok SwitchExited _ _ _ None)|].
    eapply rtc_l; [by apply (step_fire env_ok ContextDone _ _ _ None)|].
    apply rtc_once. by apply (step_fire env_ok ExplicitClose _ _ _ None).
  - exists evs. by split.
Defined.







(** ** The watchers *)





(** ** Tmpdir *)

(** At any time in the life of a universe, [Tmpdir] asks for a directory
    inside the workspace [New] made, which is the directory the teardown
    removes; it returns the new path and nil, or the empty path and the
    error; it leaves the heap alone; and it does not look at whether the
    universe is closed. *)
Theorem Tmpdir_in_workspace (E : Env) (parent : Context) (wi : World)
    (u0 : Universe) (w0 : World) (u : Universe) (w : World) (g : PortGen)
    (pfx : string) :
  New E parent wi = (Some u0, None, w0) →
  rtc (step E) (u0, w0, portGenerator) (u, w, g) →
  (∃ created,
     (Tmpdir E u pfx w).2 = emit [EvTempDir (tmpdir u0) pfx created] w
     ∧ ((∃ p, ioutil_TempDir E (trace w) (tmpdir u0) pfx = inl p
              ∧ created = Some p
              ∧ (Tmpdir E u pfx w).1 = (p, None))
        ∨ (∃ err, ioutil_TempDir E (trace w) (tmpdir u0) pfx = inr err
                  ∧ created = None
                  ∧ (Tmpdir E u pfx w).1 = (EmptyString, Some err))))
  ∧ Tmpdir E (set_closed (negb (closed u)) u) pfx w = Tmpdir E u pfx w
  ∧ (closed u = false →
     EvRemoveAll (tmpdir u0) ∈ trace (Close E u (Tmpdir E u pfx w).2).2).
Proof.
  intros Hnew Hsteps.
  pose proof (lifecycle_steps _ _ _ _ _ _ Hsteps (lifecycle_init _ _ _ _ _ Hnew))
    as (Htmp & _).
  cbn [fst snd] in Htmp. unfold Tmpdir. cbn [tmpdir set_closed].
  rewrite Htmp. split_and!.
  - destruct (ioutil_TempDir E (trace w) (tmpdir u0) pfx) as [p|err];
      eexists; (split; [done|]); [left|right]; eauto.
  - done.
  - intros Hc. rewrite Close_first by done. cbn [snd trace].
    rewrite Htmp. apply elem_of_app. right. set_solver.
Qed.

Lemma Tmpdir_in_workspace_witness :
  ∃ created,
    (Tmpdir env_ok universe1 "node" world2).2
    = emit [EvTempDir "/tmp/virtuakube042" "node" created] world2.
Proof.
  destruct (Tmpdir_in_workspace env_ok parent0 world0 universe0 world1
              universe1 world2 portGenerator "node")
    as ((created & Hw & _) & _).
  - reflexivity.
  - apply rtc_once. by apply (step_fire env_ok ExplicitClose _ _ _ None).
  - by exists created.
Defined.

(** ** Which way cancellation flows *)

Lemma New_shutdown_fresh E parent w u w' :
  New E parent w = (Some u, None, w') → length (trace w) < shutdown u.
Proof.
  intros Hnew.
  pose proof (New_cases E parent w) as Hcases. cbv zeta in Hcases.
  destruct Hcases
    as [(_ & err' & looked & Hnew' & _)
       |(Hres & [(err' & _ & Hnew')
                |(p & _ & [(err' & _ & Hnew')|(_ & Hnew')])])];
    rewrite Hnew in Hnew'; try done.
  injection Hnew' as -> ->.
  change (length (trace w)
          < S (length (trace w ++ map EvLookPath universeTools))).
  rewrite length_app. lia.
Qed.

Lemma done_other_cancel tr n id p c :
  ctx_below n c → n ≤ id →
  done (tr ++ [EvCancel id; EvRemoveAll p]) c = done tr c.
Proof.
  induction c as [|id' c' IH]; simpl; [done|].
  intros [Hlt Hb] Hn. rewrite IH by done. f_equal.
  apply bool_decide_ext. rewrite elem_of_app. split; [|by left].
  intros [Hin|Hin]; [done|].
  apply elem_of_cons in Hin as [[= ->]|Hin]; [lia|].
  by apply list_elem_of_singleton in Hin.
Qed.

(** Cancellation goes from the caller's context to the universe and not
    back: when the parent context is done so is the universe's, and a
    teardown of the universe, by any trigger, leaves the parent context
    as it was (the parent having been made before [New] was called). *)
Theorem cancellation_flows_down (E : Env) (parent : Context) (wi : World)
    (u0 : Universe) (w0 : World) (u : Universe) (w : World) (g : PortGen)
    (t : Trigger) :
  New E parent wi = (Some u0, None, w0) →
  ctx_below (length (trace wi)) parent →
  rtc (step E) (u0, w0, portGenerator) (u, w, g) →
  (done (trace w) parent = true → done (trace w) (Universe_Context u) = true)
  ∧ done (trace (fire E t u w).2) parent = done (trace w) parent.
Proof.
  intros Hnew Hbelow Hsteps.
  pose proof (lifecycle_steps _ _ _ _ _ _ Hsteps (lifecycle_init _ _ _ _ _ Hnew))
    as (_ & Hsh & Hctx & _).
  cbn [fst snd] in *. split.
  - intros Hp. unfold Universe_Context. rewrite Hctx. simpl.
    by rewrite Hp, orb_true_r.
  - rewrite fire_Close. destruct (closed u) eqn:Hc.
    + by rewrite Close_closed.
    + rewrite Close_first by done. cbn [snd trace].
      apply (done_other_cancel _ (length (trace wi))); [done|].
      rewrite Hsh. apply New_shutdown_fresh in Hnew. lia.
Qed.

Lemma cancellation_flows_down_witness :
  done (trace (fire env_ok ExplicitClose universe0 world1).2) parent0
  = done (trace world1) parent0.
Proof.
  apply (cancellation_flows_down env_ok parent0 world0 universe0 world1
           universe0 world1 portGenerator ExplicitClose).
  - reflexivity.
  - simpl. lia.
  - apply rtc_refl.
Defined.

(** ** Runs of receives under any schedule *)

Lemma recv_all_returned obs ch :
  ch_closed ch = false →
  recv_all obs ch GenReturned = (replicate (length obs) Parked, GenReturned).
Proof.
  intros Hch. induction obs as [|[ended pick] obs IH]; [done|].
  cbn [recv_all]. rewrite chan_recv_returned, IH by done. done.
Qed.

Lemma recv_all_run obs ch :
  ch_closed ch = false →
  ∀ q, ∃ m,
    m ≤ length obs
    ∧ recv_all obs ch (GenSelect (int_wrap q))
      = (((λ k : nat, Received (int_wrap (q + Z.of_nat k))) <$> seq 0 m)
         ++ replicate (length obs - m) Parked,
         if decide (m = length obs)
         then GenSelect (int_wrap (q + Z.of_nat m)) else GenReturned)
    ∧ (∀ i o, i < m → obs !! i = Some o → o.1 = false ∨ o.2 = true)
    ∧ (m < length obs → obs !! m = Some (true, false)).
Proof.
  intros Hch. induction obs as [|[ended pick] obs IH]; intros q.
  - exists 0. split_and!; [done| |intros; lia|simpl; lia].
    simpl. by rewrite Z.add_0_r.
  - cbn [recv_all]. unfold chan_recv. rewrite Hch.
    destruct (ended && negb pick) eqn:Hsel.
    + exists 0. rewrite recv_all_returned by done. split_and!.
      * simpl. lia.
      * by rewrite decide_False by (simpl; lia).
      * intros; lia.
      * intros _. apply andb_true_iff in Hsel as [-> Hp].
        apply negb_true_iff in Hp as ->. done.
    + rewrite int_wrap_succ.
      destruct (IH (q + 1)%Z) as (m & Hm & -> & Hbefore & Hat).
      exists (S m). split_and!.
      * simpl. lia.
      * cbn [length seq fmap list_fmap Nat.sub app].
        rewrite Z.add_0_r. f_equal.
        -- f_equal. f_equal. rewrite <- fmap_S_seq, <- list_fmap_compose.
           apply list_fmap_ext. intros i k _. simpl. do 2 f_equal. lia.
        -- destruct (decide (m = length obs)), (decide (S m = S (length obs)));
             try lia; [|done]. do 2 f_equal. lia.
      * intros [|i] o Hi Ho; simpl in Ho.
        -- injection Ho as <-. simpl.
           destruct ended, pick; simpl in Hsel; auto; done.
        -- apply (Hbefore i); [lia|done].
      * intros Hlt. simpl. apply Hat. simpl in Hlt. lia.
Qed.

(** Whatever each receive finds (lifetime done or not, and whichever way
    the generator's [select] goes when it has the choice), a run of
    receives on the channel of a new universe obtains 50000, 50001, ...
    without gap or repeat (up to the wrap of Go's [int]) for as long as
    the generator sends, that is until the first receive that finds the
    lifetime done and the [select] taking that case; from then on every
    receive stays parked, the generator having returned for good. *)
Theorem ports_gapless (E : Env) (parent : Context) (wi : World)
    (u : Universe) (w : World) (obs : list (bool * bool)) :
  New E parent wi = (Some u, None, w) →
  ∃ m,
    m ≤ length obs
    ∧ (recv_all obs (ports u) portGenerator).1
      = ((λ k : nat, Received (int_wrap (50000 + Z.of_nat k))) <$> seq 0 m)
        ++ replicate (length obs - m) Parked
    ∧ (recv_all obs (ports u) portGenerator).2
      = (if decide (m = length obs)
         then GenSelect (int_wrap (50000 + Z.of_nat m)) else GenReturned)
    ∧ (∀ i o, i < m → obs !! i = Some o → o.1 = false ∨ o.2 = true)
    ∧ (m < length obs → obs !! m = Some (true, false))
    ∧ ((50000 + Z.of_nat m ≤ 2 ^ 63)%Z →
       ∀ k, k < m →
         (recv_all obs (ports u) portGenerator).1 !! k
         = Some (Received (50000 + Z.of_nat k))).
Proof.
  intros (Hports & _)%New_fields.
  assert (Hch : ch_closed (ports u) = false) by by rewrite Hports.
  destruct (recv_all_run obs (ports u) Hch 50000) as (m & Hm & Hrun & Hb & Hat).
  change (GenSelect (int_wrap 50000)) with portGenerator in Hrun.
  exists m. rewrite Hrun. cbn [fst snd]. split_and!; try done.
  intros Hbound k Hk.
  rewrite lookup_app_l by (rewrite length_fmap, length_seq; lia).
  rewrite list_lookup_fmap, lookup_seq_lt by done. simpl.
  rewrite int_wrap_id; [done|lia].
Qed.

Lemma ports_gapless_witness :
  (recv_all [(false, false); (true, true); (true, false); (false, true)]
            (ports universe0) portGenerator).1
  = [Received 50000; Received 50001; Parked; Parked].
Proof.
  destruct (ports_gapless env_ok parent0 world0 universe0 world1
              [(false, false); (true, true); (true, false); (false, true)])
    as (m & _ & Hrun & _).
  - reflexivity.
  - reflexivity.
Defined.

(** ** More on the address allocators *)

Lemma calls_app f fs1 fs2 : calls f (fs1 ++ fs2) = calls f fs1 + calls f fs2.
Proof. unfold calls. by rewrite filter_app, length_app. Qed.

Lemma calls_before f fs i :
  fs !! i = Some f → calls f (take i fs) < calls f fs.
Proof.
  intros Hi. rewrite <- (take_drop_middle fs i f Hi) at 2.
  rewrite calls_app, calls_cons, decide_True by done. lia.
Qed.

(** Calls of [ipv4] and [ipv6] do not disturb each other: in any
    interleaving on a new universe with at most 255 calls of each, a
    call of [ipv4] returns 172.20.0.(1+k) where [k] counts the earlier
    calls of [ipv4] only, and a call of [ipv6] returns fd00::(1+k) where
    [k] counts the earlier calls of [ipv6] only. *)
Theorem addresses_interleaved (E : Env) (parent : Context) (w0 : World)
    (u : Universe) (w : World) (fs : list Family) :
  New E parent w0 = (Some u, None, w) →
  calls V4 fs ≤ 255 →
  calls V6 fs ≤ 255 →
  ∃ rs u' w',
    allocate_all fs u w = Some (rs, u', w')
    ∧ length rs = length fs
    ∧ ∀ i f r, fs !! i = Some f → rs !! i = Some r →
        slice_bytes (heap w') r
        = match f with
          | V4 => [172; 20; 0; 1 + Z.of_nat (calls V4 (take i fs))]
          | V6 => [253; 0; 0; 0; 0; 0; 0; 0; 0; 0; 0; 0; 0; 0; 0;
                   1 + Z.of_nat (calls V6 (take i fs))]
          end%Z.
Proof.
  intros (Hok & Hb4 & Hb6)%New_alloc_ok H4 H6.
  destruct (allocate_all_spec fs u w Hok)
    as (rs & u' & w' & ext & Hrun & Hlen & _ & _ & _ & _ & Hrets).
  exists rs, u', w'. split; [done|]. split; [done|].
  intros i f r Hf Hr. rewrite (Hrets i f r Hf Hr).
  pose proof (calls_before f fs i Hf) as Hlt.
  destruct f; cbn [cursor].
  - rewrite Hb4.
    change [172; 20; 0; 1]%Z with ([172; 20; 0] ++ [1])%Z.
    rewrite bump_snoc. simpl. rewrite Z.mod_small; [done|lia].
  - rewrite Hb6.
    change [253; 0; 0; 0; 0; 0; 0; 0; 0; 0; 0; 0; 0; 0; 0; 1]%Z
      with ([253; 0; 0; 0; 0; 0; 0; 0; 0; 0; 0; 0; 0; 0; 0] ++ [1])%Z.
    rewrite bump_snoc. simpl. rewrite Z.mod_small; [done|lia].
Qed.

Lemma addresses_interleaved_witness :
  ∃ rs u' w',
    allocate_all [V6; V4; V6; V4] universe0 world1 = Some (rs, u', w')
    ∧ length rs = 4
    ∧ ∀ i f r, [V6; V4; V6; V4] !! i = Some f → rs !! i = Some r →
        slice_bytes (heap w') r
        = match f with
          | V4 => [172; 20; 0; 1 + Z.of_nat (calls V4 (take i [V6; V4; V6; V4]))]
          | V6 => [253; 0; 0; 0; 0; 0; 0; 0; 0; 0; 0; 0; 0; 0; 0;
                   1 + Z.of_nat (calls V6 (take i [V6; V4; V6; V4]))]
          end%Z.
Proof.
  apply (addresses_interleaved env_ok parent0 world0 universe0 world1
           [V6; V4; V6; V4]).
  - reflexivity.
  - vm_compute. lia.
  - vm_compute. lia.
Defined.

Lemma lookup_snoc_length {A} (h : list A) (x : A) :
  (h ++ [x]) !! length h = Some x.
Proof. by apply list_lookup_middle. Qed.

(** [advance] succeeds on any slice header whatever: the byte it
    increments is the last one of the array it has just made. *)
Lemma advance_total n ret h :
  0 < n →
  ∃ arr, length arr = n
         ∧ advance n ret h = Some (mkSlice (length h) 0 n, h ++ [arr]).
Proof.
  intros Hn. unfold advance, make_bytes, alloc_bytes, copy_bytes.
  cbn [s_arr s_off s_len]. rewrite length_replicate, lookup_snoc_length.
  rewrite insert_snoc.
  set (arr1 := list_inserts 0 _ (replicate n 0%Z)).
  assert (Hlen1 : length arr1 = n).
  { unfold arr1. by rewrite length_inserts, length_replicate. }
  unfold index_incr. cbn [s_arr s_off s_len].
  rewrite decide_True by lia. rewrite lookup_snoc_length.
  cbn [mbind option_bind Nat.add].
  destruct (lookup_lt_is_Some_2 arr1 (n - 1)) as [b Hb]; [lia|].
  rewrite Hb. cbn [mbind option_bind]. rewrite insert_snoc.
  eexists. split; [|done]. by rewrite length_insert.
Qed.

(** [ipv4] and [ipv6] cannot panic with an index out of range, whatever
    the cursor they find, and they work on a closed universe as on an
    open one: each returns the cursor it found, adds one array of 4 (or
    16) bytes to the heap for the new cursor, and touches no array
    already there, no event and no other field. *)
Theorem allocate_never_panics (f : Family) (u : Universe) (w : World) :
  ∃ u' h',
    allocate f u w = Some (cursor f u, u', mkWorld (trace w) h')
    ∧ length h' = S (length (heap w))
    ∧ (∀ i, i < length (heap w) → h' !! i = heap w !! i)
    ∧ cursor f u' = mkSlice (length (heap w)) 0 (addr_len f)
    ∧ length (slice_bytes h' (cursor f u')) = addr_len f
    ∧ (∀ f', f' ≠ f → cursor f' u' = cursor f' u)
    ∧ closed u' = closed u ∧ closeErr u' = closeErr u
    ∧ tmpdir u' = tmpdir u ∧ Universe_Context u' = Universe_Context u
    ∧ switchSock u' = switchSock u ∧ vms u' = vms u.
Proof.
  destruct (advance_total (addr_len f) (cursor f u) (heap w))
    as (arr & Hlen & Hadv); [destruct f; simpl; lia|].
  rewrite allocate_advance, Hadv. cbn [mbind option_bind].
  eexists _, _. split; [done|]. split_and!.
  - rewrite length_app. simpl. lia.
  - intros i Hi. by apply lookup_app_l.
  - by destruct f.
  - replace (cursor f _) with (mkSlice (length (heap w)) 0 (addr_len f))
      by by destruct f.
    rewrite <- Hlen at 1. by rewrite slice_bytes_fresh.
  - intros f' Hne. by destruct f, f'.
  - by destruct f.
  - by destruct f.
  - by destruct f.
  - by destruct f.
  - by destruct f.
  - by destruct f.
Qed.

(** Teardown and address allocation do not interfere: closing and then
    allocating gives the same address, the same close result, the same
    universe and the same world as allocating and then closing. *)
Theorem allocate_Close_commute (E : Env) (f : Family) (u : Universe)
    (w : World) :
  match Close E u w with
  | (r, u1, w1) =>
      match allocate f u1 w1 with
      | Some (a, u2, w2) => Some (a, r, u2, w2)
      | None => None
      end
  end
  = match allocate f u w with
    | Some (a, u1, w1) =>
        match Close E u1 w1 with
        | (r, u2, w2) => Some (a, r, u2, w2)
        end
    | None => None
    end.
Proof.
  destruct (advance_total (addr_len f) (cursor f u) (heap w))
    as (arr & _ & Hadv); [destruct f; simpl; lia|].
  destruct (closed u) eqn:Hc.
  - rewrite Close_closed by done.
    rewrite allocate_advance, Hadv. cbn [mbind option_bind].
    rewrite Close_closed by by destruct f.
    by destruct f.
  - rewrite Close_first by done.
    rewrite !allocate_advance.
    replace (cursor f (set_closeErr _ (set_closed true u))) with (cursor f u)
      by by destruct f.
    cbn [heap trace]. rewrite Hadv. cbn [mbind option_bind].
    rewrite Close_first by by destruct f.
    by destruct f.
Qed.

(** ** A new universe is alive *)

Lemma done_app_no_cancel tr evs c :
  (∀ id, EvCancel id ∉ evs) → done (tr ++ evs) c = done tr c.
Proof.
  intros Hno. induction c as [|id c' IH]; simpl; [done|].
  rewrite IH. f_equal. apply bool_decide_ext. rewrite elem_of_app.
  split; [|by left]. intros [Hin|Hin]; [done|]. by destruct (Hno id).
Qed.

(** [New] itself ends nothing: provided the cancel functions called so
    far were all made earlier, the context of the universe it returns is
    done exactly if the parent context already was.  If it was not, a
    [Wait] with a live context blocks and the first receive from the port
    channel obtains 50000. *)
Theorem New_universe_alive (E : Env) (parent : Context) (wi : World)
    (u : Universe) (w : World) :
  New E parent wi = (Some u, None, w) →
  (∀ id, EvCancel id ∈ trace wi → id < length (trace wi)) →
  done (trace w) (Universe_Context u) = done (trace wi) parent
  ∧ (done (trace wi) parent = false →
     (∀ c pick, done (trace w) c = false →
                (Wait u c pick w).1.1 = WaitBlocked)
     ∧ ∀ pick, (recv_port u w pick portGenerator).1 = Received 50000).
Proof.
  intros Hnew Hold.
  pose proof (New_shutdown_fresh _ _ _ _ _ Hnew) as Hfresh.
  pose proof (New_fields _ _ _ _ _ Hnew) as (Hports & _).
  pose proof (lifecycle_init _ _ _ _ _ Hnew) as (_ & _ & Hctx & _).
  cbn [fst snd] in Hctx.
  assert (Htrace : ∃ evs, trace w = trace wi ++ evs ∧ ∀ id, EvCancel id ∉ evs).
  { pose proof (New_cases E parent wi) as Hcases. cbv zeta in Hcases.
    destruct Hcases
      as [(_ & err' & looked & Hnew' & _)
         |(Hres & [(err' & _ & Hnew')
                  |(p & _ & [(err' & _ & Hnew')|(_ & Hnew')])])];
      rewrite Hnew in Hnew'; try done.
    injection Hnew' as _ ->. cbn [trace].
    eexists (map EvLookPath universeTools ++ [_; _; _; _; _; _]).
    split; [by rewrite <- !app_assoc|].
    intros id [[? ?]%(elem_of_lookups _ universeTools)|Hin]%elem_of_app;
      [done|].
    repeat (apply elem_of_cons in Hin as [?|Hin]; [done|]).
    by apply elem_of_nil in Hin. }
  destruct Htrace as (evs & Htr & Hno).
  assert (Hdone : done (trace w) (ctx u) = done (trace wi) parent).
  { rewrite Hctx. simpl. rewrite Htr, done_app_no_cancel by done.
    rewrite bool_decide_eq_false_2; [done|].
    intros [Hin|Hin]%elem_of_app; [|by destruct (Hno (shutdown u))].
    apply Hold in Hin. lia. }
  unfold Universe_Context. split; [done|].
  intros Hp. rewrite Hp in Hdone. split.
  - intros c pick Hc. unfold Wait. cbn [fst]. by rewrite Hdone, Hc.
  - intros pick. unfold recv_port. by rewrite Hdone, Hports.
Qed.

Lemma New_universe_alive_witness :
  done (trace world1) (Universe_Context universe0) = false
  ∧ (Wait universe0 Background true world1).1.1 = WaitBlocked.
Proof.
  destruct (New_universe_alive env_ok parent0 world0 universe0 world1)
    as (Hdone & Halive).
  - reflexivity.
  - intros id Hin. apply list_elem_of_singleton in Hin. discriminate Hin.
  - split; [exact Hdone|]. by apply Halive.
Defined.
